(** * Particle wind between two orbiting bodies: model of [main.py]

    The simulation keeps a pool of particles in three parallel numpy arrays
    ([pos], [vel], [age]).  Each frame the red body emits a shell of new
    particles ([emit_particles]) and the pool is advanced one step against the
    blue body ([update_particles]): free flight, redirection inside the
    absorption radius, removal inside radius 0.1.

    The arithmetic of the program is numpy's float64.  The model is written
    once over an abstract scalar type with the operations the program uses, and
    is instantiated twice: at the real numbers, where the geometric statements
    are proved (exact arithmetic), and at binary64 floats, where the very same
    definitions run on concrete inputs.  Where the value of the constant pi
    matters, the reals are also read with the program's own constant,
    [np.pi], in place of pi ([np_Trig]). *)

From Stdlib Require Import List ZArith Bool Lia Sorted.
From Stdlib Require Import Floats.
From Stdlib Require Import Reals Lra.
Import ListNotations.

Set Implicit Arguments.

(** ** Scalars *)

(** The operations of float64 that the program uses. *)
Class Scalar (F : Type) : Type := {
  fromZ : Z -> F;
  fadd : F -> F -> F;
  fsub : F -> F -> F;
  fmul : F -> F -> F;
  fdiv : F -> F -> F;
  fsqrt : F -> F;
  flt : F -> F -> bool;
  feq : F -> F -> bool
}.

(** The transcendental part, used by emission and by the orbits only. *)
Class Trig (F : Type) : Type := {
  fpi : F;
  fcos : F -> F;
  fsin : F -> F;
  facos : F -> F
}.

Declare Scope num_scope.
Delimit Scope num_scope with num.
Infix "+" := fadd : num_scope.
Infix "-" := fsub : num_scope.
Infix "*" := fmul : num_scope.
Infix "/" := fdiv : num_scope.
Infix "<?" := flt : num_scope.
Infix "=?" := feq : num_scope.

(** ** The error monad: [None] is a raised exception *)

Definition bind {A B : Type} (m : option A) (k : A -> option B) : option B :=
  match m with
  | Some a => k a
  | None => None
  end.

Notation "x <- m ;; k" := (bind m (fun x => k))
  (at level 61, m at next level, right associativity).

(** ** numpy arrays as lists *)

Section Arrays.
Variables A B C : Type.

Fixpoint map2 (f : A -> B -> C) (l : list A) (r : list B) : list C :=
  match l, r with
  | a :: l', b :: r' => f a b :: map2 f l' r'
  | _, _ => []
  end.

(** Elementwise binary operation along the first axis, with numpy's
    broadcasting: equal lengths pair up, a length-one operand is repeated,
    anything else raises. *)
Definition broadcast2 (f : A -> B -> C) (l : list A) (r : list B)
  : option (list C) :=
  if (length l =? length r)%nat then Some (map2 f l r)
  else match l, r with
       | [a], _ => Some (map (f a) r)
       | _, [b] => Some (map (fun a => f a b) l)
       | _, _ => None
       end.

(** [a[mask]]: the entries where the mask holds; a mask of another length
    raises IndexError. *)
Fixpoint pick (mask : list bool) (l : list A) : list A :=
  match mask, l with
  | m :: mask', a :: l' => if m then a :: pick mask' l' else pick mask' l'
  | _, _ => []
  end.

Definition mask_select (mask : list bool) (l : list A) : option (list A) :=
  if (length mask =? length l)%nat then Some (pick mask l) else None.

(** [a[mask] = vals]: the masked entries are replaced, in order, by the
    entries of [vals]. *)
Fixpoint scatter (mask : list bool) (l vals : list A) : list A :=
  match mask, l with
  | m :: mask', a :: l' =>
      if m then
        match vals with
        | v :: vals' => v :: scatter mask' l' vals'
        | [] => a :: scatter mask' l' []
        end
      else a :: scatter mask' l' vals
  | _, _ => l
  end.

Definition count_true (mask : list bool) : nat :=
  length (filter (fun b : bool => b) mask).

(** A mask of another length raises IndexError; a value array with neither
    one row nor as many rows as the mask selects raises ValueError. *)
Definition mask_assign (mask : list bool) (l vals : list A)
  : option (list A) :=
  if (length mask =? length l)%nat then
    if (length vals =? count_true mask)%nat then Some (scatter mask l vals)
    else match vals with
         | [v] => Some (scatter mask l (repeat v (count_true mask)))
         | _ => None
         end
  else None.
End Arrays.

(** ** Vectors, the pool and the step of the pool *)

Section Field.
Context {F : Type} {SF : Scalar F}.
Local Open Scope num_scope.

(** A row of an (N, 3) array. *)
Record V3 : Type := mkV3 { c0 : F; c1 : F; c2 : F }.

Definition vadd (a b : V3) : V3 :=
  mkV3 (c0 a + c0 b) (c1 a + c1 b) (c2 a + c2 b).
Definition vsub (a b : V3) : V3 :=
  mkV3 (c0 a - c0 b) (c1 a - c1 b) (c2 a - c2 b).
Definition vdiv (a : V3) (n : F) : V3 :=
  mkV3 (c0 a / n) (c1 a / n) (c2 a / n).
Definition vscale (s : F) (a : V3) : V3 :=
  mkV3 (s * c0 a) (s * c1 a) (s * c2 a).

(** [np.linalg.norm(., axis=1)] on one row: the square root of the row's
    sum of squares. *)
Definition norm3 (a : V3) : F :=
  fsqrt ((c0 a * c0 a + c1 a * c1 a) + c2 a * c2 a).

(** Decimal literals: [dec m k] is m / 10^k, which in binary64 is the
    literal itself as long as m and 10^k are exact. *)
Definition dec (m : Z) (k : nat) : F := fromZ m / fromZ (10 ^ Z.of_nat k).

Definition absorption_radius : F := dec 25 1.
Definition absorption_speed : F := dec 5 2.
(** The literal 0.1 of [absorbed_mask]. *)
Definition removal_radius : F := dec 1 1.

(** The dict [particles]: its three keys never change, so it is a record. *)
Record Particles : Type := mkParticles {
  pos : list V3;
  vel : list V3;
  age : list F
}.

(** [np.empty((0, 3))], [np.empty((0, 3))], [np.empty((0,))]. *)
Definition no_particles : Particles := mkParticles [] [] [].

(** "Move and age". *)
Definition integrate (P : Particles) : option Particles :=
  pos' <- broadcast2 vadd (pos P) (vel P) ;;
  Some (mkParticles pos' (vel P) (map (fun a => a + fromZ 1) (age P))).

(** "Distances to blue object". *)
Definition distances (blue_pos : V3) (P : Particles) : list F :=
  map norm3 (map (fun p => vsub p blue_pos) (pos P)).

(** [norms[norms == 0] = 1.0]. *)
Definition guard_zero (n : F) : F := if n =? fromZ 0 then fromZ 1 else n.

Definition safe_norms (dirs : list V3) : list F :=
  map guard_zero (map norm3 dirs).

(** "Find particles within absorption radius": the block that overwrites the
    velocities of the close particles. *)
Definition redirect (blue_pos : V3) (dists : list F) (P : Particles)
  : option Particles :=
  let close_mask := map (fun d => d <? absorption_radius) dists in
  if existsb (fun b : bool => b) close_mask then
    close_pos <- mask_select close_mask (pos P) ;;
    let direction_to_blue := map (fun p => vsub blue_pos p) close_pos in
    let norms := safe_norms direction_to_blue in
    normalized_direction <- broadcast2 vdiv direction_to_blue norms ;;
    let absorption_force := map (vscale absorption_speed) normalized_direction in
    vel' <- mask_assign close_mask (vel P) absorption_force ;;
    Some (mkParticles (pos P) vel' (age P))
  else Some P.

(** "Remove particles that are effectively absorbed (very close)". *)
Definition remove_absorbed (dists : list F) (P : Particles)
  : option Particles :=
  let absorbed_mask := map (fun d => d <? removal_radius) dists in
  let alive_mask := map negb absorbed_mask in
  pos' <- mask_select alive_mask (pos P) ;;
  vel' <- mask_select alive_mask (vel P) ;;
  age' <- mask_select alive_mask (age P) ;;
  Some (mkParticles pos' vel' age').

Definition update_particles (blue_pos : V3) (P : Particles)
  : option Particles :=
  if (length (pos P) =? 0)%nat then Some P
  else
    P1 <- integrate P ;;
    let dists := distances blue_pos P1 in
    P2 <- redirect blue_pos dists P1 ;;
    remove_absorbed dists P2.

(** The same step with the distances taken a second time, after the
    redirection, for the removal mask. *)
Definition update_particles_resampled (blue_pos : V3) (P : Particles)
  : option Particles :=
  if (length (pos P) =? 0)%nat then Some P
  else
    P1 <- integrate P ;;
    P2 <- redirect blue_pos (distances blue_pos P1) P1 ;;
    remove_absorbed (distances blue_pos P2) P2.

(** The parallel arrays describe the same particles. *)
Definition aligned (P : Particles) : Prop :=
  length (pos P) = length (vel P) /\ length (vel P) = length (age P).

(** *** The pool seen particle by particle

    An aligned pool is a list of particles ([pool_of], [rows]); the
    definitions below say what the array operations above do to each of
    them, and the facts section proves that they do. *)

Record particle : Type := mkParticle { p_pos : V3; p_vel : V3; p_age : F }.

Definition pool_of (ps : list particle) : Particles :=
  mkParticles (map p_pos ps) (map p_vel ps) (map p_age ps).

Fixpoint rows_of (ps vs : list V3) (ags : list F) : list particle :=
  match ps, vs, ags with
  | p :: ps', v :: vs', a :: ags' => mkParticle p v a :: rows_of ps' vs' ags'
  | _, _, _ => []
  end.

Definition rows (P : Particles) : list particle :=
  rows_of (pos P) (vel P) (age P).

(** One particle through the three stages. *)
Definition drift (q : particle) : particle :=
  mkParticle (vadd (p_pos q) (p_vel q)) (p_vel q) (p_age q + fromZ 1).

Definition dist_to (blue_pos : V3) (q : particle) : F :=
  norm3 (vsub (p_pos q) blue_pos).

Definition is_close (blue_pos : V3) (q : particle) : bool :=
  dist_to blue_pos q <? absorption_radius.

Definition pull (blue_pos : V3) (p : V3) : V3 :=
  let d := vsub blue_pos p in
  vscale absorption_speed (vdiv d (guard_zero (norm3 d))).

Definition steer (blue_pos : V3) (q : particle) : particle :=
  if is_close blue_pos q
  then mkParticle (p_pos q) (pull blue_pos (p_pos q)) (p_age q)
  else q.

Definition is_absorbed (blue_pos : V3) (q : particle) : bool :=
  dist_to blue_pos q <? removal_radius.

Definition survives (blue_pos : V3) (q : particle) : bool :=
  negb (is_absorbed blue_pos q).

(** The whole step on a list of particles.  The redirection keeps positions,
    so filtering before or after it selects the same particles. *)
Definition tick (blue_pos : V3) (ps : list particle) : list particle :=
  map (steer blue_pos) (filter (survives blue_pos) (map drift ps)).
End Field.

Arguments V3 F : clear implicits.
Arguments Particles F : clear implicits.
Arguments particle F : clear implicits.

(** ** Emission, orbits and the frame step *)

Section Simulation.
Context {F : Type} {SF : Scalar F} {TF : Trig F}.
Local Open Scope num_scope.

(** *** Configuration *)

Definition red_radius : F := dec 12 1.
Definition blue_radius : F := fromZ 3.
Definition orbit_period : Z := 120.
Definition red_circ : F := fromZ 2 * fpi * red_radius.
Definition red_speed : F := red_circ / fromZ orbit_period.
Definition center : V3 F := mkV3 (fromZ 0) (fromZ 0) (fromZ 0).
Definition particles_frame : Z := 400.
Definition wind_speed : F := red_speed.

(** [np.linspace(0, 2 * np.pi, orbit_period, endpoint=False)]: sample i is
    i * step + start with step = (stop - start) / num. *)
Definition phase (i : nat) : F :=
  let start := fromZ 0 in
  let stop := fromZ 2 * fpi in
  let step := (stop - start) / fromZ orbit_period in
  fromZ (Z.of_nat i) * step + start.

Definition theta : list F := map phase (seq 0 (Z.to_nat orbit_period)).

(** *** The global random generator

    The state of [np.random] is the stream of values that
    [random_sample()] has yet to return; [uniform] consumes [size] of them
    and maps each into [low, high). *)
Definition RandomState : Type := nat -> F.

Definition uniform (low high : F) (size : nat) (g : RandomState)
  : list F * RandomState :=
  (map (fun i => low + (high - low) * g i) (seq 0 size),
   fun i => g (size + i)%nat).

(** Everything the simulation mutates. *)
Record World : Type := mkWorld {
  particles : Particles F;
  random : RandomState
}.

Definition initial (g : RandomState) : World := mkWorld no_particles g.

Fixpoint zip3 (xs ys zs : list F) : list (V3 F) :=
  match xs, ys, zs with
  | a :: xs', b :: ys', c :: zs' => mkV3 a b c :: zip3 xs' ys' zs'
  | _, _, _ => []
  end.

(** [np.stack([xs, ys, zs], axis=1)]: arrays of different shapes raise. *)
Definition stack3 (xs ys zs : list F) : option (list (V3 F)) :=
  if ((length xs =? length ys)%nat && (length ys =? length zs)%nat)%bool
  then Some (zip3 xs ys zs) else None.

Definition emit_particles (x y z : F) (n : Z) (radius : F) (W : World)
  : option World :=
  if (n <=? 0)%Z then Some W
  else
    let size := Z.to_nat n in
    let (azimuthal_angles, g1) := uniform (fromZ 0) (fromZ 2 * fpi) size (random W) in
    let (u, g2) := uniform (fromZ (-1)) (fromZ 1) size g1 in
    let polar_angles := map facos u in
    let scaled (l : list F) := map (fun t => t * wind_speed) l in
    cs <- broadcast2 fmul (map fcos azimuthal_angles) (map fsin polar_angles) ;;
    let vx := scaled cs in
    ss <- broadcast2 fmul (map fsin azimuthal_angles) (map fsin polar_angles) ;;
    let vy := scaled ss in
    let vz := scaled (map fcos polar_angles) in
    rcs <- broadcast2 fmul (map (fun a => radius * fcos a) azimuthal_angles)
                           (map fsin polar_angles) ;;
    let new_pos_x := map (fun t => x + t) rcs in
    rss <- broadcast2 fmul (map (fun a => radius * fsin a) azimuthal_angles)
                           (map fsin polar_angles) ;;
    let new_pos_y := map (fun t => y + t) rss in
    let new_pos_z := map (fun p => z + radius * fcos p) polar_angles in
    new_pos <- stack3 new_pos_x new_pos_y new_pos_z ;;
    new_vel <- stack3 vx vy vz ;;
    let new_age := repeat (fromZ 0) size in
    let P := particles W in
    Some (mkWorld (mkParticles (pos P ++ new_pos) (vel P ++ new_vel)
                               (age P ++ new_age)) g2).

(** The same emission read particle by particle: the [i]-th new particle
    takes the [i]-th azimuth of the first draw and the [i]-th polar angle of
    the second draw. *)
Definition azimuth (g : RandomState) (i : nat) : F :=
  fromZ 0 + (fromZ 2 * fpi - fromZ 0) * g i.

Definition polar (size : nat) (g : RandomState) (i : nat) : F :=
  facos (fromZ (-1) + (fromZ 1 - fromZ (-1)) * g (size + i)%nat).

Definition shell_point (x y z radius a p : F) : V3 F :=
  mkV3 (x + radius * fcos a * fsin p)
       (y + radius * fsin a * fsin p)
       (z + radius * fcos p).

Definition wind (a p : F) : V3 F :=
  mkV3 (fcos a * fsin p * wind_speed)
       (fsin a * fsin p * wind_speed)
       (fcos p * wind_speed).

Definition emitted (x y z radius : F) (size : nat) (g : RandomState)
  : list (particle F) :=
  map (fun i => mkParticle
                  (shell_point x y z radius (azimuth g i) (polar size g i))
                  (wind (azimuth g i) (polar size g i))
                  (fromZ 0))
      (seq 0 size).

(** The sampled direction of emission, a point of the unit sphere. *)
Definition direction (a p : F) : V3 F :=
  mkV3 (fcos a * fsin p) (fsin a * fsin p) (fcos p).

(** [update_particles] on the world: the generator is not touched. *)
Definition advance (blue_pos : V3 F) (W : World) : option World :=
  P' <- update_particles blue_pos (particles W) ;;
  Some (mkWorld P' (random W)).

(** The positions of the red (emitter) and the blue (absorber) body at a
    frame; [theta[frame_idx]] raises IndexError out of range. *)
Definition orbit_positions (frame : Z) : option (V3 F * V3 F) :=
  let frame_idx := (frame mod orbit_period)%Z in
  th <- nth_error theta (Z.to_nat frame_idx) ;;
  let x_red := c0 center + red_radius * fcos th in
  let y_red := c1 center + red_radius * fsin th in
  let z_red := c2 center in
  let x_blue := c0 center + blue_radius * fcos (th + fpi) in
  let y_blue := c1 center + blue_radius * fsin (th + fpi) in
  let z_blue := c2 center in
  Some (mkV3 x_red y_red z_red, mkV3 x_blue y_blue z_blue).

(** The simulation part of [update_frames]; the drawing calls around it do
    not touch the pool. *)
Definition update_frames (frame : Z) (W : World)
  : option (V3 F * V3 F * World) :=
  rb <- orbit_positions frame ;;
  let (red, blue_pos) := rb in
  W1 <- emit_particles (c0 red) (c1 red) (c2 red) particles_frame red_radius W ;;
  W2 <- advance blue_pos W1 ;;
  Some (red, blue_pos, W2).

(** *** Sequences of calls *)

Inductive call : Type :=
| Emit (x y z : F) (n : Z) (radius : F)
| Advance (blue_pos : V3 F)
| Frame (frame : Z).

Definition step (c : call) (W : World) : option World :=
  match c with
  | Emit x y z n radius => emit_particles x y z n radius W
  | Advance blue_pos => advance blue_pos W
  | Frame frame => r <- update_frames frame W ;; Some (snd r)
  end.

(** The worlds observed after each call of a sequence. *)
Fixpoint run (cs : list call) (W : World) : option (list World) :=
  match cs with
  | [] => Some []
  | c :: cs' =>
      W' <- step c W ;;
      rest <- run cs' W' ;;
      Some (W' :: rest)
  end.
End Simulation.

Arguments World F : clear implicits.
Arguments RandomState F : clear implicits.
Arguments call F : clear implicits.

(** ** The clock shown with each frame *)

Section Clock.
Context {F : Type} {SF : Scalar F}.
Local Open Scope num_scope.

Definition period : F := dec 48 1.
Definition frame_time : F := period / fromZ orbit_period.

(** [sim_time = frame_idx * frame_time] of [update_frames]. *)
Definition sim_time (frame : Z) : F :=
  let frame_idx := (frame mod orbit_period)%Z in
  fromZ frame_idx * frame_time.
End Clock.

(** ** The constant [np.pi] *)

Section Constants.
Context {F : Type} {SF : Scalar F}.
Local Open Scope num_scope.

(** [np.pi] is the binary64 number nearest to pi, 884279719003555 / 2^48:
    both integers are exact in binary64 and so is their quotient. *)
Definition np_pi : F := fromZ 884279719003555 / fromZ 281474976710656.
End Constants.

(** ** The two instances *)

Definition Rltb (a b : R) : bool := if Rlt_dec a b then true else false.
Definition Reqb (a b : R) : bool := if Req_dec_T a b then true else false.

#[export] Instance R_Scalar : Scalar R := {|
  fromZ := IZR;
  fadd := Rplus;
  fsub := Rminus;
  fmul := Rmult;
  fdiv := Rdiv;
  fsqrt := R_sqrt.sqrt;
  flt := Rltb;
  feq := Reqb
|}.

#[export] Instance R_Trig : Trig R := {|
  fpi := PI;
  fcos := cos;
  fsin := sin;
  facos := acos
|}.



(** Small integers convert exactly to binary64. *)
Definition float_of_Z (z : Z) : float :=
  match z with
  | Z0 => PrimFloat.zero
  | Zpos _ => PrimFloat.of_uint63 (Uint63.of_Z z)
  | Zneg p => PrimFloat.opp (PrimFloat.of_uint63 (Uint63.of_Z (Zpos p)))
  end.

#[export] Instance float_Scalar : Scalar float := {|
  fromZ := float_of_Z;
  fadd := PrimFloat.add;
  fsub := PrimFloat.sub;
  fmul := PrimFloat.mul;
  fdiv := PrimFloat.div;
  fsqrt := PrimFloat.sqrt;
  flt := PrimFloat.ltb;
  feq := PrimFloat.eqb
|}.

(** The sum of squares under the square root of [norm3], at the reals. *)
Definition sumsq (a : V3 R) : R :=
  (c0 a * c0 a + c1 a * c1 a + c2 a * c2 a)%R.

(** ** Concrete pools in binary64

    Frame 0 of the animation: the blue body is at (-3, 0, 0).  The pool holds
    a particle at distance 0.05 from it, one at distance 2.4, one exactly on
    it and one far away at the red body, all at rest but the last. *)

#[local] Set Warnings "-inexact-float".

Definition blue_frame0 : V3 float := mkV3 (-3)%float 0%float 0%float.

Definition still (x y z a : float) : particle float :=
  mkParticle (mkV3 x y z) (mkV3 0%float 0%float 0%float) a.

Definition sample_pool : Particles float :=
  pool_of [ still (-2.95)%float 0%float 0%float 0%float;
            still (-0.6)%float 0%float 0%float 3%float;
            still (-3)%float 0%float 0%float 5%float;
            mkParticle (mkV3 1.2%float 0%float 0%float)
                       (mkV3 0%float 0.5%float 0%float) 7%float ].

(** A pool whose arrays disagree: two positions, three velocities. *)
Definition ragged_pool : Particles float :=
  mkParticles [mkV3 0%float 0%float 0%float; mkV3 1%float 0%float 0%float]
              [mkV3 0%float 0%float 0%float; mkV3 0%float 0%float 0%float;
               mkV3 0%float 0%float 0%float]
              [0%float; 0%float].

(** ** Concrete pools at the reals *)

(** One particle, one step before it lands exactly on a blue body placed at
    the origin. *)
Definition origin3 : V3 R := mkV3 0%R 0%R 0%R.

Definition landing_pool : Particles R :=
  mkParticles [mkV3 (-1)%R 0%R 0%R] [mkV3 1%R 0%R 0%R] [0%R].

(** One particle at rest exactly on a blue body placed at (1, 2, 3). *)
Definition blue123 : V3 R := mkV3 1%R 2%R 3%R.

Definition resting_pool : Particles R :=
  mkParticles [blue123] [mkV3 0%R 0%R 0%R] [4%R].

(** A particle at rest one unit away from the blue body at the origin, and a
    second one landing on it. *)
Definition mixed_pool : Particles R :=
  mkParticles [mkV3 1%R 0%R 0%R; mkV3 (-1)%R 0%R 0%R]
              [mkV3 0%R 0%R 0%R; mkV3 1%R 0%R 0%R]
              [2%R; 0%R].

(** A particle at rest one unit away from a blue body at the origin. *)
Definition at_rest_one_away : particle R :=
  mkParticle (mkV3 1%R 0%R 0%R) (mkV3 0%R 0%R 0%R) 2%R.

(** A particle at rest three units away from it. *)
Definition at_rest_three_away : particle R :=
  mkParticle (mkV3 3%R 0%R 0%R) (mkV3 0%R 0%R 0%R) 0%R.

(** * Facts *)

(** ** Arrays that are maps of one list *)

Section ArrayFacts.
Variables X A B C : Type.

Lemma map2_map (f : A -> B -> C) (g : X -> A) (h : X -> B) (l : list X) :
  map2 f (map g l) (map h l) = map (fun x => f (g x) (h x)) l.
Proof. induction l as [|x l IH]; simpl; [reflexivity | now rewrite IH]. Qed.

Lemma broadcast2_same_length (f : A -> B -> C) (l : list A) (r : list B) :
  length l = length r -> broadcast2 f l r = Some (map2 f l r).
Proof.
  intros E. unfold broadcast2. rewrite E, Nat.eqb_refl. reflexivity.
Qed.

Lemma broadcast2_map (f : A -> B -> C) (g : X -> A) (h : X -> B) (l : list X) :
  broadcast2 f (map g l) (map h l) = Some (map (fun x => f (g x) (h x)) l).
Proof.
  rewrite broadcast2_same_length by (now rewrite !length_map).
  now rewrite map2_map.
Qed.

Lemma pick_map (m : X -> bool) (g : X -> A) (l : list X) :
  pick (map m l) (map g l) = map g (filter m l).
Proof.
  induction l as [|x l IH]; simpl; [reflexivity|].
  destruct (m x); simpl; now rewrite IH.
Qed.

Lemma mask_select_map (m : X -> bool) (g : X -> A) (l : list X) :
  mask_select (map m l) (map g l) = Some (map g (filter m l)).
Proof.
  unfold mask_select. rewrite !length_map, Nat.eqb_refl.
  now rewrite pick_map.
Qed.

Lemma count_true_map (m : X -> bool) (l : list X) :
  count_true (map m l) = length (filter m l).
Proof.
  unfold count_true. induction l as [|x l IH]; simpl; [reflexivity|].
  destruct (m x); simpl; now rewrite IH.
Qed.

Lemma scatter_map (m : X -> bool) (g h : X -> A) (l : list X) :
  scatter (map m l) (map g l) (map h (filter m l))
  = map (fun x => if m x then h x else g x) l.
Proof.
  induction l as [|x l IH]; simpl; [reflexivity|].
  destruct (m x); simpl; now rewrite IH.
Qed.

Lemma mask_assign_map (m : X -> bool) (g h : X -> A) (l : list X) :
  mask_assign (map m l) (map g l) (map h (filter m l))
  = Some (map (fun x => if m x then h x else g x) l).
Proof.
  unfold mask_assign.
  rewrite !length_map, Nat.eqb_refl, count_true_map, Nat.eqb_refl.
  now rewrite scatter_map.
Qed.

Lemma no_true_map (m : X -> bool) (g h : X -> A) (l : list X) :
  existsb (fun b : bool => b) (map m l) = false ->
  map g l = map (fun x => if m x then h x else g x) l.
Proof.
  induction l as [|x l IH]; simpl; [reflexivity|].
  intros E. apply orb_false_iff in E. destruct E as [-> E].
  now rewrite (IH E).
Qed.

Lemma length_filter_split (m : X -> bool) (l : list X) :
  (length (filter m l) + length (filter (fun x => negb (m x)) l))%nat
  = length l.
Proof.
  induction l as [|x l IH]; simpl; [reflexivity|].
  destruct (m x); simpl; lia.
Qed.
End ArrayFacts.

(** ** The pool, particle by particle *)

Section FieldFacts.
Context {F : Type} {SF : Scalar F}.
Local Open Scope num_scope.

Lemma aligned_pool_of (ps : list (particle F)) : aligned (pool_of ps).
Proof. unfold aligned, pool_of; simpl. now rewrite !length_map. Qed.

Lemma pool_of_rows_of (ps vs : list (V3 F)) (ags : list F) :
  length ps = length vs -> length vs = length ags ->
  pool_of (rows_of ps vs ags) = mkParticles ps vs ags.
Proof.
  revert vs ags.
  induction ps as [|p ps IH]; intros [|v vs] [|a ags]; simpl;
    try discriminate; [reflexivity|].
  intros E1 E2. injection E1 as E1. injection E2 as E2.
  specialize (IH vs ags E1 E2). unfold pool_of in *. simpl.
  injection IH as -> -> ->. reflexivity.
Qed.

Lemma pool_of_rows (P : Particles F) : aligned P -> pool_of (rows P) = P.
Proof.
  destruct P as [ps vs ags]. intros [E1 E2]. now apply pool_of_rows_of.
Qed.

Lemma length_rows (P : Particles F) :
  aligned P -> length (rows P) = length (pos P).
Proof.
  intros H. rewrite <- (pool_of_rows H) at 2. simpl. now rewrite length_map.
Qed.

Lemma integrate_pool (ps : list (particle F)) :
  integrate (pool_of ps) = Some (pool_of (map drift ps)).
Proof.
  unfold integrate, pool_of; simpl.
  rewrite broadcast2_map; simpl. now rewrite !map_map.
Qed.

Lemma distances_pool (blue_pos : V3 F) (ps : list (particle F)) :
  distances blue_pos (pool_of ps) = map (dist_to blue_pos) ps.
Proof. unfold distances, pool_of; simpl. now rewrite !map_map. Qed.

Lemma redirect_pool (blue_pos : V3 F) (ps : list (particle F)) :
  redirect blue_pos (map (dist_to blue_pos) ps) (pool_of ps)
  = Some (pool_of (map (steer blue_pos) ps)).
Proof.
  unfold redirect. rewrite map_map. fold (is_close blue_pos).
  assert (Hpos : map p_pos (map (steer blue_pos) ps) = map p_pos ps).
  { rewrite map_map. apply map_ext. intros q. unfold steer.
    now destruct (is_close blue_pos q). }
  assert (Hage : map p_age (map (steer blue_pos) ps) = map p_age ps).
  { rewrite map_map. apply map_ext. intros q. unfold steer.
    now destruct (is_close blue_pos q). }
  assert (Hvel : map p_vel (map (steer blue_pos) ps)
                 = map (fun q => if is_close blue_pos q
                                 then pull blue_pos (p_pos q) else p_vel q) ps).
  { rewrite map_map. apply map_ext. intros q. unfold steer.
    now destruct (is_close blue_pos q). }
  replace (pool_of (map (steer blue_pos) ps))
    with (mkParticles (map p_pos ps)
            (map (fun q => if is_close blue_pos q
                           then pull blue_pos (p_pos q) else p_vel q) ps)
            (map p_age ps))
    by (unfold pool_of; now rewrite Hpos, Hage, Hvel).
  clear Hpos Hage Hvel.
  destruct (existsb _ _) eqn:E.
  - unfold pool_of; simpl.
    rewrite mask_select_map; simpl.
    unfold safe_norms. rewrite !map_map.
    rewrite broadcast2_map; simpl. rewrite map_map.
    change (fun x : particle F =>
              vscale absorption_speed
                (vdiv (vsub blue_pos (p_pos x))
                      (guard_zero (norm3 (vsub blue_pos (p_pos x))))))
      with (fun q : particle F => pull blue_pos (p_pos q)).
    rewrite mask_assign_map; simpl.
    reflexivity.
  - unfold pool_of. f_equal. f_equal. now apply no_true_map.
Qed.

Lemma remove_absorbed_pool (blue_pos : V3 F) (X : Type)
      (d : X -> F) (g : X -> particle F) (l : list X) :
  remove_absorbed (map d l) (pool_of (map g l))
  = Some (pool_of (map g (filter (fun x => negb (d x <? removal_radius)) l))).
Proof.
  unfold remove_absorbed, pool_of; simpl. rewrite !map_map.
  rewrite (mask_select_map (fun x => negb (d x <? removal_radius))
             (fun x => p_pos (g x))); simpl.
  rewrite (mask_select_map (fun x => negb (d x <? removal_radius))
             (fun x => p_vel (g x))); simpl.
  rewrite (mask_select_map (fun x => negb (d x <? removal_radius))
             (fun x => p_age (g x))); simpl.
  reflexivity.
Qed.

Lemma survives_steer (blue_pos : V3 F) (q : particle F) :
  survives blue_pos (steer blue_pos q) = survives blue_pos q.
Proof.
  unfold survives, is_absorbed, dist_to, steer.
  now destruct (is_close blue_pos q).
Qed.

(** The whole step, read off particle by particle. *)
Lemma update_particles_pool (blue_pos : V3 F) (ps : list (particle F)) :
  update_particles blue_pos (pool_of ps) = Some (pool_of (tick blue_pos ps)).
Proof.
  unfold update_particles.
  destruct ps as [|q ps]; [reflexivity|].
  change (length (pos (pool_of (q :: ps))) =? 0)%nat with false.
  rewrite integrate_pool; cbn [bind].
  rewrite distances_pool, redirect_pool; cbn [bind].
  rewrite (remove_absorbed_pool blue_pos (dist_to blue_pos) (steer blue_pos)).
  reflexivity.
Qed.

Lemma update_particles_aligned (blue_pos : V3 F) (P : Particles F) :
  aligned P ->
  update_particles blue_pos P = Some (pool_of (tick blue_pos (rows P))).
Proof.
  intros H. rewrite <- (pool_of_rows H) at 1. apply update_particles_pool.
Qed.
End FieldFacts.

(** ** Emission and the frame step *)

Section SimulationFacts.
Context {F : Type} {SF : Scalar F} {TF : Trig F}.
Local Open Scope num_scope.

Lemma zip3_map (X : Type) (f g h : X -> F) (l : list X) :
  zip3 (map f l) (map g l) (map h l) = map (fun x => mkV3 (f x) (g x) (h x)) l.
Proof. induction l as [|x l IH]; simpl; [reflexivity | now rewrite IH]. Qed.

Lemma stack3_map (X : Type) (f g h : X -> F) (l : list X) :
  stack3 (map f l) (map g l) (map h l)
  = Some (map (fun x => mkV3 (f x) (g x) (h x)) l).
Proof.
  unfold stack3. rewrite !length_map, Nat.eqb_refl. simpl.
  now rewrite zip3_map.
Qed.

Lemma repeat_map_seq (A : Type) (a : A) (n s : nat) :
  repeat a n = map (fun _ => a) (seq s n).
Proof. revert s. induction n as [|n IH]; intros s; simpl; [reflexivity | now rewrite <- IH]. Qed.

Lemma pool_of_app (ps qs : list (particle F)) :
  pool_of (ps ++ qs)
  = mkParticles (pos (pool_of ps) ++ pos (pool_of qs))
                (vel (pool_of ps) ++ vel (pool_of qs))
                (age (pool_of ps) ++ age (pool_of qs)).
Proof. unfold pool_of; simpl. now rewrite !map_app. Qed.

(** A positive request appends the emitted particles and consumes two
    draws of [n] samples. *)
Lemma emit_particles_pos (x y z : F) (n : Z) (radius : F) (W : World F) :
  (0 < n)%Z ->
  emit_particles x y z n radius W
  = Some (mkWorld
            (mkParticles
               (pos (particles W) ++ pos (pool_of (emitted x y z radius (Z.to_nat n) (random W))))
               (vel (particles W) ++ vel (pool_of (emitted x y z radius (Z.to_nat n) (random W))))
               (age (particles W) ++ age (pool_of (emitted x y z radius (Z.to_nat n) (random W)))))
            (fun i => random W (Z.to_nat n + (Z.to_nat n + i))%nat)).
Proof.
  intros Hn. unfold emit_particles.
  destruct (n <=? 0)%Z eqn:E; [apply Z.leb_le in E; lia|]. clear E.
  set (size := Z.to_nat n). unfold uniform, emitted, pool_of.
  cbn [fst snd pos vel age]. rewrite !map_map.
  rewrite !broadcast2_map; cbn [bind]. rewrite !map_map.
  rewrite !stack3_map; cbn [bind].
  rewrite (repeat_map_seq (fromZ 0) size 0).
  reflexivity.
Qed.

Lemma emit_particles_nonpos (x y z : F) (n : Z) (radius : F) (W : World F) :
  (n <= 0)%Z -> emit_particles x y z n radius W = Some W.
Proof.
  intros Hn. unfold emit_particles.
  destruct (n <=? 0)%Z eqn:E; [reflexivity | apply Z.leb_gt in E; lia].
Qed.

(** Emission on a pool given particle by particle, for every count. *)
Lemma emit_particles_pool (x y z : F) (n : Z) (radius : F)
      (ps : list (particle F)) (g : RandomState F) :
  emit_particles x y z n radius (mkWorld (pool_of ps) g)
  = Some (mkWorld (pool_of (ps ++ emitted x y z radius (Z.to_nat n) g))
                  (fun i => g (Z.to_nat n + (Z.to_nat n + i))%nat)).
Proof.
  destruct (Z.leb_spec n 0) as [Hn|Hn].
  - rewrite emit_particles_nonpos by assumption.
    replace (Z.to_nat n) with 0%nat by lia.
    unfold emitted; simpl. now rewrite app_nil_r.
  - rewrite emit_particles_pos by assumption.
    now rewrite pool_of_app.
Qed.

Lemma advance_pool (blue_pos : V3 F) (ps : list (particle F))
      (g : RandomState F) :
  advance blue_pos (mkWorld (pool_of ps) g)
  = Some (mkWorld (pool_of (tick blue_pos ps)) g).
Proof.
  unfold advance; simpl. now rewrite update_particles_pool.
Qed.

Lemma frame_index_bound (frame : Z) :
  (Z.to_nat (frame mod orbit_period) < Z.to_nat orbit_period)%nat.
Proof.
  unfold orbit_period.
  pose proof (Z.mod_pos_bound frame 120 eq_refl). lia.
Qed.

(** The lookup [theta[frame_idx]] is always in range. *)
Lemma theta_lookup (frame : Z) :
  nth_error theta (Z.to_nat (frame mod orbit_period))
  = Some (phase (Z.to_nat (frame mod orbit_period))).
Proof.
  unfold theta. rewrite nth_error_map, nth_error_seq.
  pose proof (frame_index_bound frame) as H.
  apply Nat.ltb_lt in H. rewrite H. reflexivity.
Qed.

Lemma orbit_positions_some (frame : Z) :
  exists red blue_pos, orbit_positions frame = Some (red, blue_pos).
Proof.
  unfold orbit_positions. rewrite theta_lookup; cbn [bind]. eauto.
Qed.

Lemma update_frames_pool (frame : Z) (ps : list (particle F))
      (g : RandomState F) :
  exists red blue_pos ps' g',
    update_frames frame (mkWorld (pool_of ps) g)
    = Some (red, blue_pos, mkWorld (pool_of ps') g').
Proof.
  destruct (orbit_positions_some frame) as (red & blue_pos & E).
  unfold update_frames. rewrite E; cbn [bind].
  rewrite emit_particles_pool; cbn [bind].
  rewrite advance_pool; cbn [bind]. eauto.
Qed.

Lemma step_pool (c : call F) (ps : list (particle F)) (g : RandomState F) :
  exists ps' g', step c (mkWorld (pool_of ps) g) = Some (mkWorld (pool_of ps') g').
Proof.
  destruct c as [x y z n radius|blue_pos|frame]; simpl.
  - rewrite emit_particles_pool. eauto.
  - rewrite advance_pool. eauto.
  - destruct (update_frames_pool frame ps g) as (red & blue_pos & ps' & g' & E).
    rewrite E; cbn [bind snd]. eauto.
Qed.

(** Every sequence of calls runs to its end, and every world on the way
    holds a pool that is a list of whole particles. *)
Lemma run_pool (cs : list (call F)) :
  forall (ps : list (particle F)) (g : RandomState F),
  exists Ws,
    run cs (mkWorld (pool_of ps) g) = Some Ws
    /\ length Ws = length cs
    /\ Forall (fun W => exists ps' g', W = mkWorld (pool_of ps') g') Ws.
Proof.
  induction cs as [|c cs IH]; intros ps g; simpl.
  - exists []. repeat split; constructor.
  - destruct (step_pool c ps g) as (ps' & g' & E). rewrite E; cbn [bind].
    destruct (IH ps' g') as (Ws & R & L & A). rewrite R; cbn [bind].
    exists (mkWorld (pool_of ps') g' :: Ws). repeat split.
    + simpl. now rewrite L.
    + constructor; eauto.
Qed.
End SimulationFacts.

(** ** Exact arithmetic: the model at the real numbers *)

Ltac real_ops :=
  cbv [fadd fsub fmul fdiv fsqrt flt feq fromZ fpi fcos fsin facos
       R_Scalar R_Trig] in *.

Section RealFacts.
Local Open Scope R_scope.

Lemma Rltb_true (a b : R) : Rltb a b = true <-> a < b.
Proof. unfold Rltb. destruct (Rlt_dec a b); split; intros; try easy. Qed.

Lemma Rltb_false (a b : R) : Rltb a b = false <-> b <= a.
Proof.
  unfold Rltb. destruct (Rlt_dec a b); split; intros; try easy; lra.
Qed.

Lemma Reqb_true (a b : R) : Reqb a b = true <-> a = b.
Proof. unfold Reqb. destruct (Req_dec_T a b); split; intros; easy. Qed.

Lemma Reqb_false (a b : R) : Reqb a b = false <-> a <> b.
Proof. unfold Reqb. destruct (Req_dec_T a b); split; intros; easy. Qed.

Lemma absorption_radius_R : @absorption_radius R _ = 5 / 2.
Proof. unfold absorption_radius, dec. real_ops. simpl. lra. Qed.

Lemma absorption_speed_R : @absorption_speed R _ = 1 / 20.
Proof. unfold absorption_speed, dec. real_ops. simpl. lra. Qed.

Lemma removal_radius_R : @removal_radius R _ = 1 / 10.
Proof. unfold removal_radius, dec. real_ops. simpl. lra. Qed.

Lemma red_radius_R : @red_radius R _ = 6 / 5.
Proof. unfold red_radius, dec. real_ops. simpl. lra. Qed.

Lemma wind_speed_R : @wind_speed R _ _ = PI / 50.
Proof.
  unfold wind_speed, red_speed, red_circ, orbit_period.
  rewrite red_radius_R. real_ops. lra.
Qed.

Lemma wind_speed_pos : 0 < @wind_speed R _ _.
Proof. rewrite wind_speed_R. pose proof PI_RGT_0. lra. Qed.

Lemma norm3_R (a : V3 R) : norm3 a = sqrt (sumsq a).
Proof. reflexivity. Qed.

Lemma sumsq_nonneg (a : V3 R) : 0 <= sumsq a.
Proof. unfold sumsq. nra. Qed.

Lemma norm3_nonneg (a : V3 R) : 0 <= norm3 a.
Proof. rewrite norm3_R. apply sqrt_pos. Qed.

Lemma squares_zero (x y z : R) :
  x * x + y * y + z * z = 0 -> x = 0 /\ y = 0 /\ z = 0.
Proof.
  intros H.
  pose proof (Rle_0_sqr x) as Hx. pose proof (Rle_0_sqr y) as Hy.
  pose proof (Rle_0_sqr z) as Hz. unfold Rsqr in *.
  repeat split; apply Rsqr_0_uniq; unfold Rsqr; lra.
Qed.

Lemma norm3_vsub_sym (a b : V3 R) : norm3 (vsub a b) = norm3 (vsub b a).
Proof.
  rewrite !norm3_R. f_equal. unfold sumsq, vsub; simpl. real_ops. ring.
Qed.

Lemma norm3_vscale (k : R) (a : V3 R) :
  0 <= k -> norm3 (vscale k a) = k * norm3 a.
Proof.
  intros Hk. rewrite !norm3_R.
  replace (sumsq (vscale k a)) with (k * k * sumsq a)
    by (unfold sumsq, vscale; simpl; real_ops; ring).
  rewrite sqrt_mult_alt by nra. now rewrite sqrt_square.
Qed.

Lemma norm3_zero : norm3 (mkV3 0 0 0) = 0.
Proof.
  rewrite norm3_R. unfold sumsq; simpl.
  replace (0 * 0 + 0 * 0 + 0 * 0) with 0 by ring. apply sqrt_0.
Qed.

Lemma vsub_diag (a : V3 R) : vsub a a = mkV3 0 0 0.
Proof. unfold vsub. real_ops. f_equal; ring. Qed.

Lemma guard_zero_R (n : R) : guard_zero n = if Reqb n 0 then 1 else n.
Proof. reflexivity. Qed.

Lemma guard_zero_nonzero (n : R) : guard_zero n <> 0.
Proof.
  rewrite guard_zero_R. destruct (Reqb n 0) eqn:E.
  - lra.
  - now apply Reqb_false.
Qed.

Lemma vscale_vdiv (s n : R) (d : V3 R) :
  n <> 0 -> vscale s (vdiv d n) = vscale (s / n) d.
Proof.
  intros Hn. unfold vscale, vdiv; simpl. real_ops. f_equal; field; assumption.
Qed.

(** Away from the absorber the pull is the unit direction towards it,
    scaled to the absorption speed. *)
Lemma pull_away (blue_pos p : V3 R) :
  0 < norm3 (vsub p blue_pos) ->
  pull blue_pos p
  = vscale (absorption_speed / norm3 (vsub p blue_pos)) (vsub blue_pos p)
  /\ norm3 (pull blue_pos p) = absorption_speed.
Proof.
  intros Hd. rewrite (norm3_vsub_sym p blue_pos) in *.
  set (d := vsub blue_pos p) in *.
  assert (Hg : guard_zero (norm3 d) = norm3 d).
  { rewrite guard_zero_R.
    destruct (Reqb (norm3 d) 0) eqn:E; [apply Reqb_true in E; lra | reflexivity]. }
  unfold pull. fold d. rewrite Hg.
  rewrite vscale_vdiv by lra. split; [reflexivity|].
  rewrite norm3_vscale.
  - real_ops. field. lra.
  - rewrite absorption_speed_R. real_ops.
    apply Rlt_le, Rdiv_lt_0_compat; lra.
Qed.

(** At the absorber the guarded norm is one and the pull is the zero
    vector. *)
Lemma pull_at_absorber (blue_pos : V3 R) :
  pull blue_pos blue_pos = mkV3 0 0 0.
Proof.
  unfold pull. rewrite vsub_diag, norm3_zero, guard_zero_R.
  replace (Reqb 0 0) with true by (symmetry; now apply Reqb_true).
  unfold vscale, vdiv; simpl. real_ops. f_equal; field.
Qed.

Lemma norm3_direction (a p : R) : norm3 (direction a p) = 1.
Proof.
  rewrite norm3_R. unfold sumsq, direction; simpl. real_ops.
  replace (cos a * sin p * (cos a * sin p) + sin a * sin p * (sin a * sin p)
           + cos p * cos p)
    with (((sin a)² + (cos a)²) * (sin p)² + ((cos p)² + (sin p)²) - (sin p)²)
    by (unfold Rsqr; ring).
  rewrite sin2_cos2. rewrite (Rplus_comm (cos p)²), sin2_cos2.
  replace (1 * (sin p)² + 1 - (sin p)²) with 1 by ring. apply sqrt_1.
Qed.

Lemma shell_point_direction (x y z r a p : R) :
  shell_point x y z r a p = vadd (mkV3 x y z) (vscale r (direction a p)).
Proof.
  unfold shell_point, vadd, vscale, direction; simpl. real_ops.
  f_equal; ring.
Qed.

Lemma wind_direction (a p : R) :
  wind a p = vscale wind_speed (direction a p).
Proof.
  unfold wind, vscale, direction; simpl. real_ops. f_equal; ring.
Qed.

Lemma shell_point_distance (x y z r a p : R) :
  0 <= r -> norm3 (vsub (shell_point x y z r a p) (mkV3 x y z)) = r.
Proof.
  intros Hr. rewrite shell_point_direction.
  replace (vsub (vadd (mkV3 x y z) (vscale r (direction a p))) (mkV3 x y z))
    with (vscale r (direction a p))
    by (unfold vsub, vadd, vscale; simpl; real_ops; f_equal; ring).
  rewrite norm3_vscale by assumption. rewrite norm3_direction. real_ops. ring.
Qed.
End RealFacts.

(** ** The scenarios of the animation, run in binary64 *)

(** The particle 0.05 away from the blue body and the one on it are removed;
    the one 2.4 away is kept and pulled towards the blue body at speed 0.05;
    the far one flies on unredirected.  Every age grows by one. *)
Example sample_pool_step :
  update_particles blue_frame0 sample_pool
  = Some (mkParticles
            [mkV3 (-0.6)%float 0%float 0%float; mkV3 1.2%float 0.5%float 0%float]
            [mkV3 (-0.05)%float 0%float 0%float; mkV3 0%float 0.5%float 0%float]
            [4%float; 8%float]).
Proof. vm_compute. reflexivity. Qed.

(** A particle at rest exactly on the blue body: after the move and the
    redirection its velocity is the zero vector, in binary64 as at the
    reals. *)
Example on_the_blue_body_binary64 :
  (P1 <- integrate (pool_of [still (-3)%float 0%float 0%float 5%float]) ;;
   redirect blue_frame0 (distances blue_frame0 P1) P1)
  = Some (mkParticles [mkV3 (-3)%float 0%float 0%float]
                      [mkV3 0%float 0%float 0%float]
                      [6%float]).
Proof. vm_compute. reflexivity. Qed.

(** [np_pi] at binary64 is the literal that Python prints for [np.pi]. *)
Example np_pi_binary64 : @np_pi float _ = 3.141592653589793%float.
Proof. vm_compute. reflexivity. Qed.

Example decimal_literals :
  (absorption_radius, absorption_speed, removal_radius)
  = (2.5%float, 0.05%float, 0.1%float).
Proof. vm_compute. reflexivity. Qed.

(** * The properties of the pool *)

Section PoolClaims.
Context {F : Type} {SF : Scalar F} {TF : Trig F}.
Local Open Scope num_scope.

(** C1. Whatever sequence of emit, advance and frame calls is made from the
    empty pool, every call returns, and after each of them the three
    parallel arrays have the same length:
    len(pos) = len(vel) = len(age). *)
Theorem pool_lengths_agree (cs : list (call F)) (g : RandomState F) :
  exists Ws,
    run cs (initial g) = Some Ws
    /\ length Ws = length cs
    /\ Forall (fun W =>
                 length (pos (particles W)) = length (vel (particles W))
                 /\ length (vel (particles W)) = length (age (particles W)))
              Ws.
Proof.
  destruct (run_pool cs [] g) as (Ws & R & L & A).
  exists Ws. repeat split; [exact R | exact L |].
  eapply Forall_impl; [|exact A].
  intros W (ps & g' & ->). apply (aligned_pool_of ps).
Qed.

(** C5. One advance of a pool whose arrays are aligned removes exactly the
    particles whose distance to the blue body, taken after the move, is
    below the removal radius: the survivors are the other particles, in
    order, with their position, velocity and age entries kept together, and
    the pool shrinks by the number of removed particles. *)
Theorem removal_exact (blue_pos : V3 F) (P : Particles F) :
  aligned P ->
  let moved := map drift (rows P) in
  let kept := filter (survives blue_pos) moved in
  exists P',
    update_particles blue_pos P = Some P'
    /\ pos P' = map p_pos kept
    /\ vel P' = map (fun q => p_vel (steer blue_pos q)) kept
    /\ age P' = map p_age kept
    /\ Forall (fun q => (dist_to blue_pos q <? removal_radius) = false) kept
    /\ (forall q, In q moved ->
                  (dist_to blue_pos q <? removal_radius) = true -> ~ In q kept)
    /\ (forall q, In q moved ->
                  (dist_to blue_pos q <? removal_radius) = false -> In q kept)
    /\ (length (pos P') + length (filter (is_absorbed blue_pos) moved))%nat
       = length (pos P).
Proof.
  intros H moved kept.
  exists (pool_of (tick blue_pos (rows P))).
  split; [now apply update_particles_aligned|].
  assert (Hsteer_pos : forall l, map p_pos (map (steer blue_pos) l) = map p_pos l).
  { intros l. rewrite map_map. apply map_ext. intros q. unfold steer.
    now destruct (is_close blue_pos q). }
  assert (Hsteer_age : forall l, map p_age (map (steer blue_pos) l) = map p_age l).
  { intros l. rewrite map_map. apply map_ext. intros q. unfold steer.
    now destruct (is_close blue_pos q). }
  unfold tick. fold moved. fold kept. simpl.
  repeat split.
  - apply Hsteer_pos.
  - now rewrite map_map.
  - apply Hsteer_age.
  - apply Forall_forall. intros q Hq. apply filter_In in Hq.
    destruct Hq as [_ Hq]. unfold survives, is_absorbed in Hq.
    now apply negb_true_iff in Hq.
  - intros q _ Hq Hin. apply filter_In in Hin. destruct Hin as [_ Hs].
    unfold survives, is_absorbed in Hs. rewrite Hq in Hs. discriminate.
  - intros q Hin Hq. apply filter_In. split; [assumption|].
    unfold survives, is_absorbed. now rewrite Hq.
  - rewrite Hsteer_pos, length_map.
    rewrite <- (length_rows H). unfold kept, moved.
    rewrite <- (length_map drift (rows P)).
    rewrite <- (length_filter_split (is_absorbed blue_pos) (map drift (rows P))).
    unfold survives, is_absorbed. lia.
Qed.

(** C6. The redirection rewrites velocities only: positions and ages are
    the ones it was given, so the distances to the blue body are the same
    before and after it, and taking them once, after the move, for both
    masks gives the same step as taking them again for the removal. *)
Theorem one_distance_snapshot (blue_pos : V3 F) (P : Particles F) :
  (forall dists P2,
      redirect blue_pos dists P = Some P2 ->
      pos P2 = pos P /\ age P2 = age P
      /\ distances blue_pos P2 = distances blue_pos P)
  /\ update_particles_resampled blue_pos P = update_particles blue_pos P.
Proof.
  assert (Hred : forall dists Q Q2,
             redirect blue_pos dists Q = Some Q2 ->
             pos Q2 = pos Q /\ age Q2 = age Q
             /\ distances blue_pos Q2 = distances blue_pos Q).
  { intros dists Q Q2. unfold redirect.
    destruct (existsb _ _).
    - destruct (mask_select _ (pos Q)); cbn [bind]; [|discriminate].
      destruct (broadcast2 _ _ _); cbn [bind]; [|discriminate].
      destruct (mask_assign _ _ _); cbn [bind]; [|discriminate].
      intros [= <-]. unfold distances; simpl. auto.
    - intros [= <-]. auto. }
  split; [intros dists P2; apply Hred|].
  unfold update_particles_resampled, update_particles.
  destruct (length (pos P) =? 0)%nat; [reflexivity|].
  destruct (integrate P) as [P1|]; cbn [bind]; [|reflexivity].
  destruct (redirect blue_pos (distances blue_pos P1) P1) as [P2|] eqn:E;
    cbn [bind]; [|reflexivity].
  destruct (Hred _ _ _ E) as (_ & _ & ->). reflexivity.
Qed.
End PoolClaims.

(** The step of C5 on the binary64 pool of frame 0. *)
Lemma removal_exact_witness :
  exists P',
    update_particles blue_frame0 sample_pool = Some P'
    /\ pos P' = [mkV3 (-0.6)%float 0%float 0%float; mkV3 1.2%float 0.5%float 0%float]
    /\ length (pos P') = 2%nat.
Proof.
  destruct (removal_exact blue_frame0 (P := sample_pool) (conj eq_refl eq_refl))
    as (P' & E & Hpos & _).
  exists P'. split; [exact E|].
  rewrite Hpos. split; vm_compute; reflexivity.
Defined.

(** * The geometric properties, in exact arithmetic *)

Section RealClaims.
Local Open Scope R_scope.

Lemma is_close_true (blue_pos : V3 R) (q : particle R) :
  is_close blue_pos q = true <-> dist_to blue_pos q < 5 / 2.
Proof.
  unfold is_close. rewrite absorption_radius_R. apply Rltb_true.
Qed.

Lemma is_close_false (blue_pos : V3 R) (q : particle R) :
  is_close blue_pos q = false <-> 5 / 2 <= dist_to blue_pos q.
Proof.
  unfold is_close. rewrite absorption_radius_R. apply Rltb_false.
Qed.

Lemma survives_true (blue_pos : V3 R) (q : particle R) :
  survives blue_pos q = true <-> 1 / 10 <= dist_to blue_pos q.
Proof.
  unfold survives, is_absorbed. rewrite removal_radius_R, negb_true_iff.
  apply Rltb_false.
Qed.

Lemma survives_false (blue_pos : V3 R) (q : particle R) :
  survives blue_pos q = false <-> dist_to blue_pos q < 1 / 10.
Proof.
  unfold survives, is_absorbed. rewrite removal_radius_R, negb_false_iff.
  apply Rltb_true.
Qed.

Lemma dist_to_self (blue_pos v : V3 R) (a : R) :
  dist_to blue_pos (mkParticle blue_pos v a) = 0.
Proof. unfold dist_to; cbn [p_pos]. rewrite vsub_diag. apply norm3_zero. Qed.

(** What the redirection does to one particle. *)
Lemma steer_cases (blue_pos : V3 R) (q : particle R) :
  (0 < dist_to blue_pos q < 5 / 2 ->
   p_vel (steer blue_pos q)
   = vscale (absorption_speed / dist_to blue_pos q) (vsub blue_pos (p_pos q))
   /\ norm3 (p_vel (steer blue_pos q)) = absorption_speed)
  /\ (dist_to blue_pos q = 0 -> p_vel (steer blue_pos q) = mkV3 0 0 0)
  /\ (5 / 2 <= dist_to blue_pos q -> steer blue_pos q = q).
Proof.
  split; [|split].
  - intros [H0 H1]. apply is_close_true in H1. unfold steer. rewrite H1.
    cbn [p_vel]. now apply pull_away.
  - intros H0.
    assert (H1 : is_close blue_pos q = true) by (apply is_close_true; lra).
    unfold steer. rewrite H1; simpl.
    assert (E : p_pos q = blue_pos).
    { unfold dist_to in H0. rewrite norm3_R in H0.
      apply sqrt_eq_0 in H0; [|apply sumsq_nonneg].
      unfold sumsq, vsub in H0; simpl in H0. real_ops.
      destruct (p_pos q) as [a b c], blue_pos as [a' b' c']; simpl in *.
      apply squares_zero in H0. f_equal; lra. }
    rewrite E. apply pull_at_absorber.
  - intros H. apply is_close_false in H. unfold steer. now rewrite H.
Qed.
Lemma steer_pos (blue_pos : V3 R) (q : particle R) :
  p_pos (steer blue_pos q) = p_pos q.
Proof. unfold steer. now destruct (is_close blue_pos q). Qed.

Lemma filter_map_comm (A B : Type) (f : B -> bool) (g : A -> B) (l : list A) :
  filter f (map g l) = map g (filter (fun x => f (g x)) l).
Proof.
  induction l as [|x l IH]; simpl; [reflexivity|].
  destruct (f (g x)); simpl; now rewrite IH.
Qed.

(** C2. For a shell radius r > 0, emit appends Z.to_nat n particles (none,
    leaving the world as it was, when n <= 0).  Each new particle has age 0,
    lies at distance r from the origin of the emission, and for its sampled
    unit direction d its position is origin + r d and its velocity is
    wind_speed d, of magnitude wind_speed. *)
Theorem emit_shell (x y z : R) (n : Z) (r : R) (W : World R) :
  0 < r ->
  exists (W' : World R) (new : list (particle R)),
    emit_particles x y z n r W = Some W'
    /\ pos (particles W') = pos (particles W) ++ map p_pos new
    /\ vel (particles W') = vel (particles W) ++ map p_vel new
    /\ age (particles W') = age (particles W) ++ map p_age new
    /\ length new = Z.to_nat n
    /\ ((n <= 0)%Z -> W' = W)
    /\ 0 < wind_speed
    /\ Forall (fun q =>
                 norm3 (vsub (p_pos q) (mkV3 x y z)) = r
                 /\ p_age q = 0
                 /\ exists a p,
                      norm3 (direction a p) = 1
                      /\ p_pos q = vadd (mkV3 x y z) (vscale r (direction a p))
                      /\ p_vel q = vscale wind_speed (direction a p)
                      /\ norm3 (p_vel q) = wind_speed)
              new.
Proof.
  intros Hr. destruct (Z.leb_spec n 0) as [Hn|Hn].
  - exists W, []. rewrite emit_particles_nonpos by assumption. simpl.
    rewrite !app_nil_r.
    repeat split; try reflexivity; [lia | apply wind_speed_pos | constructor].
  - exists (mkWorld
              (mkParticles
                 (pos (particles W) ++ pos (pool_of (emitted x y z r (Z.to_nat n) (random W))))
                 (vel (particles W) ++ vel (pool_of (emitted x y z r (Z.to_nat n) (random W))))
                 (age (particles W) ++ age (pool_of (emitted x y z r (Z.to_nat n) (random W)))))
              (fun i => random W (Z.to_nat n + (Z.to_nat n + i))%nat)),
           (emitted x y z r (Z.to_nat n) (random W)).
    split; [now apply emit_particles_pos|].
    split; [reflexivity|]. split; [reflexivity|]. split; [reflexivity|].
    split; [unfold emitted; now rewrite length_map, length_seq|].
    split; [intros; lia|].
    split; [apply wind_speed_pos|].
    unfold emitted. apply Forall_map, Forall_forall. intros i _.
    cbn [p_pos p_vel p_age].
    split; [apply shell_point_distance; lra|]. split; [reflexivity|].
    exists (azimuth (random W) i), (polar (Z.to_nat n) (random W) i).
    split; [apply norm3_direction|].
    split; [apply shell_point_direction|].
    split; [apply wind_direction|].
    rewrite wind_direction, norm3_vscale, norm3_direction.
    + real_ops. ring.
    + apply Rlt_le, wind_speed_pos.
Qed.

(** C3, as the code has it.  Within the absorption radius and off the blue
    body itself (0 < d < 2.5, d the distance after the move), the velocity is
    replaced by absorption_speed / d times the vector from the particle to
    the blue body, whatever it was before, so it has magnitude
    absorption_speed; at distance 2.5 or more the particle is left as it
    is.  Every particle that stays in the pool has d > 0. *)
Theorem redirect_overwrites (blue_pos : V3 R) (ps : list (particle R)) :
  let moved := map drift ps in
  exists P2,
    redirect blue_pos (distances blue_pos (pool_of moved)) (pool_of moved)
    = Some P2
    /\ pos P2 = map p_pos moved
    /\ vel P2 = map (fun q => p_vel (steer blue_pos q)) moved
    /\ update_particles blue_pos (pool_of ps)
       = Some (pool_of (map (steer blue_pos) (filter (survives blue_pos) moved)))
    /\ forall q,
         (0 < dist_to blue_pos q < absorption_radius ->
          p_vel (steer blue_pos q)
          = vscale (absorption_speed / dist_to blue_pos q)
                   (vsub blue_pos (p_pos q))
          /\ 0 < absorption_speed / dist_to blue_pos q
          /\ norm3 (p_vel (steer blue_pos q)) = absorption_speed)
         /\ (absorption_radius <= dist_to blue_pos q -> steer blue_pos q = q)
         /\ (survives blue_pos q = true -> 0 < dist_to blue_pos q).
Proof.
  intros moved. exists (pool_of (map (steer blue_pos) moved)).
  split; [rewrite distances_pool; apply redirect_pool|].
  split; [simpl; rewrite map_map; apply map_ext; intros q; apply steer_pos|].
  split; [simpl; now rewrite map_map|].
  split; [apply update_particles_pool|].
  intros q. destruct (steer_cases blue_pos q) as (Hin & _ & Hout).
  rewrite absorption_radius_R. split; [|split].
  - intros H. destruct (Hin H) as [E N]. repeat split; try assumption.
    rewrite absorption_speed_R. apply Rdiv_lt_0_compat; lra.
  - exact Hout.
  - intros H. apply survives_true in H. lra.
Qed.

(** C4, as the code has it.  For a particle exactly on the blue body the norm
    of the direction is replaced by 1, the division is by 1, and the velocity
    written is the zero vector, of magnitude 0; the particle is then dropped
    by the removal of the same step. *)
Theorem redirect_at_absorber (blue_pos v : V3 R) (a : R)
        (before after : list (particle R)) :
  let q := mkParticle blue_pos v a in
  let P := pool_of (before ++ q :: after) in
  exists P2,
    redirect blue_pos (distances blue_pos P) P = Some P2
    /\ guard_zero (norm3 (vsub blue_pos (p_pos q))) = 1
    /\ nth_error (vel P2) (length before) = Some (mkV3 0 0 0)
    /\ norm3 (mkV3 0 0 0) = 0
    /\ survives blue_pos q = false.
Proof.
  intros q P. exists (pool_of (map (steer blue_pos) (before ++ q :: after))).
  split; [unfold P; rewrite distances_pool; apply redirect_pool|].
  split.
  { cbn [p_pos q]. rewrite vsub_diag, norm3_zero, guard_zero_R.
    replace (Reqb 0 0) with true by (symmetry; now apply Reqb_true).
    reflexivity. }
  split.
  { cbn [vel pool_of]. rewrite !map_app. cbn [map].
    rewrite nth_error_app2 by (rewrite !length_map; lia).
    rewrite !length_map, Nat.sub_diag. cbn [nth_error]. f_equal.
    destruct (steer_cases blue_pos q) as (_ & H0 & _).
    apply H0. apply dist_to_self. }
  split; [apply norm3_zero|].
  apply survives_false. unfold q. rewrite dist_to_self. lra.
Qed.

(** C7. The move adds each velocity to its position and 1 to each age; a
    particle with zero velocity keeps its position.  After the whole step
    the particles still in the pool have exactly these positions and
    ages. *)
Theorem integration_step (blue_pos : V3 R) (ps : list (particle R)) :
  integrate (pool_of ps)
  = Some (mkParticles (map (fun q => vadd (p_pos q) (p_vel q)) ps)
                      (map p_vel ps)
                      (map (fun q => p_age q + 1) ps))
  /\ (forall p : V3 R, vadd p (mkV3 0 0 0) = p)
  /\ exists P',
      update_particles blue_pos (pool_of ps) = Some P'
      /\ pos P' = map (fun q => vadd (p_pos q) (p_vel q))
                      (filter (fun q => survives blue_pos (drift q)) ps)
      /\ age P' = map (fun q => p_age q + 1)
                      (filter (fun q => survives blue_pos (drift q)) ps).
Proof.
  split; [|split].
  - rewrite integrate_pool. unfold pool_of. now rewrite !map_map.
  - intros [a b c]. unfold vadd; simpl. real_ops. f_equal; ring.
  - exists (pool_of (tick blue_pos ps)).
    split; [apply update_particles_pool|].
    unfold tick. rewrite filter_map_comm. cbn [pos age pool_of].
    rewrite !map_map. split; apply map_ext; intros q.
    + now rewrite steer_pos.
    + unfold steer. now destruct (is_close blue_pos (drift q)).
Qed.








(** C9. Nothing raises.  Every sequence of calls from the empty pool runs to
    its end, and in every world met on the way every further call returns;
    emit with n <= 0 and advance on an empty [pos] array return the world
    unchanged; the norms used as divisors are never zero; the table lookup of
    the frame step is always in range. *)
Theorem no_operation_raises :
  (forall (cs : list (call R)) (g : RandomState R),
      exists Ws, run cs (initial g) = Some Ws /\ length Ws = length cs)
  /\ (forall (cs : list (call R)) (g : RandomState R) Ws W (c : call R),
         run cs (initial g) = Some Ws -> In W Ws ->
         exists W', step c W = Some W')
  /\ (forall x y z n r (W : World R),
         (n <= 0)%Z -> emit_particles x y z n r W = Some W)
  /\ (forall blue_pos (P : Particles R),
         pos P = [] -> update_particles blue_pos P = Some P)
  /\ (forall dirs : list (V3 R), Forall (fun n => n <> 0) (safe_norms dirs))
  /\ (forall frame : Z, exists rb, @orbit_positions R _ _ frame = Some rb).
Proof.
  split; [|split; [|split; [|split; [|split]]]].
  - intros cs g. destruct (run_pool cs [] g) as (Ws & E & L & _). eauto.
  - intros cs g Ws W c E HW.
    destruct (run_pool cs [] g) as (Ws' & E' & _ & A).
    change (run cs (initial g) = Some Ws') in E'.
    rewrite E in E'. injection E' as <-.
    rewrite Forall_forall in A. destruct (A W HW) as (ps & g' & ->).
    destruct (step_pool c ps g') as (ps' & g'' & S). eauto.
  - intros. now apply emit_particles_nonpos.
  - intros blue_pos P H. unfold update_particles. now rewrite H.
  - intros dirs. unfold safe_norms. apply Forall_map, Forall_forall.
    intros n _. apply guard_zero_nonzero.
  - intros frame. destruct (orbit_positions_some (F := R) frame) as (r & b & E).
    eauto.
Qed.

(** C10. After one advance of an aligned pool, every position left in the
    pool is at distance at least 0.1 from the blue body; in particular no
    particle that the move has put exactly on the blue body is left. *)
Theorem survivors_outside_removal_radius (blue_pos : V3 R) (P : Particles R) :
  aligned P ->
  exists P',
    update_particles blue_pos P = Some P'
    /\ Forall (fun p => 1 / 10 <= norm3 (vsub p blue_pos)) (pos P')
    /\ ~ In blue_pos (pos P').
Proof.
  intros H. exists (pool_of (tick blue_pos (rows P))).
  split; [now apply update_particles_aligned|].
  assert (A : Forall (fun p => 1 / 10 <= norm3 (vsub p blue_pos))
                     (pos (pool_of (tick blue_pos (rows P))))).
  { unfold tick. cbn [pos pool_of]. rewrite map_map.
    apply Forall_map, Forall_forall. intros q Hq.
    apply filter_In in Hq. destruct Hq as [_ Hq].
    rewrite steer_pos. now apply survives_true in Hq. }
  split; [exact A|].
  intros Hin. rewrite Forall_forall in A. specialize (A _ Hin).
  rewrite vsub_diag, norm3_zero in A. lra.
Qed.

(** The step of C2 on the empty world: two particles on the unit sphere
    around the origin. *)
Lemma emit_shell_witness :
  exists (W' : World R) (new : list (particle R)),
    emit_particles 0 0 0 2 1 (initial (fun _ => 0)) = Some W'
    /\ pos (particles W') = [] ++ map p_pos new
    /\ vel (particles W') = [] ++ map p_vel new
    /\ age (particles W') = [] ++ map p_age new
    /\ length new = 2%nat
    /\ ((2 <= 0)%Z -> W' = initial (fun _ => 0))
    /\ 0 < wind_speed
    /\ Forall (fun q =>
                 norm3 (vsub (p_pos q) (mkV3 0 0 0)) = 1
                 /\ p_age q = 0
                 /\ exists a p,
                      norm3 (direction a p) = 1
                      /\ p_pos q = vadd (mkV3 0 0 0) (vscale 1 (direction a p))
                      /\ p_vel q = vscale wind_speed (direction a p)
                      /\ norm3 (p_vel q) = wind_speed)
              new.
Proof.
  exact (emit_shell 0 0 0 2 (initial (fun _ => 0)) Rlt_0_1).
Defined.

(** The step of C10 on a pool with a particle landing on the blue body. *)
Lemma survivors_outside_removal_radius_witness :
  exists P',
    update_particles origin3 mixed_pool = Some P'
    /\ Forall (fun p => 1 / 10 <= norm3 (vsub p origin3)) (pos P')
    /\ ~ In origin3 (pos P').
Proof.
  exact (@survivors_outside_removal_radius origin3 mixed_pool
           (conj eq_refl eq_refl)).
Defined.

(** C3 as stated fails on a particle that the move puts exactly on the blue
    body: it is within the absorption radius, and the velocity written for
    it is the zero vector, not one of magnitude absorption_speed. *)
Lemma landing_particle_velocity :
  exists P1 P2,
    integrate landing_pool = Some P1
    /\ distances origin3 P1 = [0]
    /\ 0 < absorption_radius
    /\ redirect origin3 (distances origin3 P1) P1 = Some P2
    /\ vel P2 = [mkV3 0 0 0]
    /\ norm3 (mkV3 0 0 0) <> absorption_speed.
Proof.
  set (q1 := mkParticle origin3 (mkV3 1 0 0) 1).
  assert (E : integrate landing_pool = Some (pool_of [q1])).
  { change landing_pool
      with (pool_of [mkParticle (mkV3 (-1) 0 0) (mkV3 1 0 0) 0]).
    rewrite integrate_pool. cbn [map]. do 3 f_equal.
    unfold drift, q1, origin3, vadd; simpl. real_ops.
    f_equal; [f_equal|]; lra. }
  assert (D : distances origin3 (pool_of [q1]) = [0]).
  { rewrite distances_pool. cbn [map]. unfold q1. now rewrite dist_to_self. }
  exists (pool_of [q1]), (pool_of (map (steer origin3) [q1])).
  split; [exact E|]. split; [exact D|].
  split; [rewrite absorption_radius_R; lra|].
  split; [rewrite distances_pool; apply redirect_pool|].
  split.
  - cbn [vel pool_of map]. f_equal.
    destruct (steer_cases origin3 q1) as (_ & H0 & _).
    apply H0. apply dist_to_self.
  - rewrite norm3_zero, absorption_speed_R. lra.
Qed.

(** C4 as stated fails on a particle at rest on the blue body: the step does
    not raise, but the velocity written has magnitude 0, not
    absorption_speed. *)
Lemma resting_particle_velocity :
  exists P1 P2,
    integrate resting_pool = Some P1
    /\ pos P1 = [blue123]
    /\ redirect blue123 (distances blue123 P1) P1 = Some P2
    /\ vel P2 = [mkV3 0 0 0]
    /\ norm3 (mkV3 0 0 0) = 0
    /\ norm3 (mkV3 0 0 0) <> absorption_speed.
Proof.
  set (q1 := mkParticle blue123 (mkV3 0 0 0) 5).
  assert (E : integrate resting_pool = Some (pool_of [q1])).
  { change resting_pool with (pool_of [mkParticle blue123 (mkV3 0 0 0) 4]).
    rewrite integrate_pool. cbn [map]. do 3 f_equal.
    unfold drift, q1, blue123, vadd; simpl. real_ops.
    f_equal; [f_equal|]; lra. }
  exists (pool_of [q1]), (pool_of (map (steer blue123) [q1])).
  split; [exact E|]. split; [reflexivity|].
  split; [rewrite distances_pool; apply redirect_pool|].
  split.
  - cbn [vel pool_of map]. f_equal.
    destruct (steer_cases blue123 q1) as (_ & H0 & _).
    apply H0. apply dist_to_self.
  - split; [apply norm3_zero|].
    rewrite norm3_zero, absorption_speed_R. lra.
Qed.
End RealClaims.

(** * Further properties of the step and of the frame *)

Section ShapeFacts.
Variable A : Type.

Lemma length_scatter (mask : list bool) (l vals : list A) :
  length (scatter mask l vals) = length l.
Proof.
  revert l vals. induction mask as [|m mask IH]; intros [|a l] vals;
    simpl; try reflexivity.
  destruct m; [destruct vals|]; simpl; now rewrite IH.
Qed.

Lemma mask_assign_length (mask : list bool) (l vals l' : list A) :
  mask_assign mask l vals = Some l' -> length l' = length l.
Proof.
  unfold mask_assign. destruct (length mask =? length l)%nat; [|discriminate].
  destruct (length vals =? count_true mask)%nat.
  - intros [= <-]. apply length_scatter.
  - destruct vals as [|v [|v' vals]]; try discriminate.
    intros [= <-]. apply length_scatter.
Qed.
End ShapeFacts.

Section FrameFacts.
Context {F : Type} {SF : Scalar F} {TF : Trig F}.
Local Open Scope num_scope.

(** The redirection returns arrays of the shapes it was given. *)
Lemma redirect_shape (blue_pos : V3 F) (dists : list F) (Q Q2 : Particles F) :
  redirect blue_pos dists Q = Some Q2 ->
  pos Q2 = pos Q /\ age Q2 = age Q /\ length (vel Q2) = length (vel Q).
Proof.
  unfold redirect. destruct (existsb _ _).
  - destruct (mask_select _ (pos Q)); cbn [bind]; [|discriminate].
    destruct (broadcast2 _ _ _); cbn [bind]; [|discriminate].
    destruct (mask_assign _ (vel Q) _) as [v'|] eqn:M; cbn [bind];
      [|discriminate].
    intros [= <-]. cbn [pos vel age]. repeat split.
    now apply mask_assign_length in M.
  - intros [= <-]. auto.
Qed.

Lemma tick_app (blue_pos : V3 F) (ps qs : list (particle F)) :
  tick blue_pos (ps ++ qs) = tick blue_pos ps ++ tick blue_pos qs.
Proof. unfold tick. now rewrite map_app, filter_app, map_app. Qed.

Lemma length_tick (blue_pos : V3 F) (ps : list (particle F)) :
  (length (tick blue_pos ps) <= length ps)%nat.
Proof.
  unfold tick. rewrite length_map.
  rewrite <- (length_map drift ps). apply filter_length_le.
Qed.

(** The frame step on a pool given particle by particle. *)
Lemma update_frames_explicit (frame : Z) (ps : list (particle F))
      (g : RandomState F) (red blue_pos : V3 F) :
  orbit_positions frame = Some (red, blue_pos) ->
  update_frames frame (mkWorld (pool_of ps) g)
  = Some (red, blue_pos,
          mkWorld
            (pool_of (tick blue_pos
                        (ps ++ emitted (c0 red) (c1 red) (c2 red) red_radius
                                       (Z.to_nat particles_frame) g)))
            (fun i => g (Z.to_nat particles_frame
                         + (Z.to_nat particles_frame + i))%nat)).
Proof.
  intros E. unfold update_frames. rewrite E; cbn [bind].
  rewrite emit_particles_pool; cbn [bind].
  rewrite advance_pool; cbn [bind]. reflexivity.
Qed.

(** A property of the list of particles that emission and the step keep
    holds in every world a run goes through. *)
Lemma run_pool_invariant (Inv : list (particle F) -> Prop) :
  (forall x y z radius size g ps,
      Inv ps -> Inv (ps ++ emitted x y z radius size g)) ->
  (forall blue_pos ps, Inv ps -> Inv (tick blue_pos ps)) ->
  forall (cs : list (call F)) (ps : list (particle F)) (g : RandomState F),
    Inv ps ->
    exists Ws,
      run cs (mkWorld (pool_of ps) g) = Some Ws
      /\ length Ws = length cs
      /\ Forall (fun W => exists ps' g',
                     W = mkWorld (pool_of ps') g' /\ Inv ps') Ws.
Proof.
  intros Hemit Htick.
  assert (Hstep : forall c ps g, Inv ps ->
             exists ps' g', step c (mkWorld (pool_of ps) g)
                            = Some (mkWorld (pool_of ps') g')
                            /\ Inv ps').
  { intros c ps g H. destruct c as [x y z n radius|blue_pos|frame]; simpl.
    - rewrite emit_particles_pool. eexists _, _. split; [reflexivity|].
      now apply Hemit.
    - rewrite advance_pool. eexists _, _. split; [reflexivity|].
      now apply Htick.
    - destruct (orbit_positions_some frame) as (red & blue_pos & E).
      rewrite (@update_frames_explicit frame ps g red blue_pos E);
        cbn [bind snd].
      eexists _, _. split; [reflexivity|].
      now apply Htick, Hemit. }
  induction cs as [|c cs IH]; intros ps g H; simpl.
  - exists []. repeat split; constructor.
  - destruct (Hstep c ps g H) as (ps' & g' & E & H'). rewrite E; cbn [bind].
    destruct (IH ps' g' H') as (Ws & R & L & A). rewrite R; cbn [bind].
    exists (mkWorld (pool_of ps') g' :: Ws). repeat split.
    + simpl. now rewrite L.
    + constructor; eauto.
Qed.

(** The same for a property of single particles. *)
Lemma run_particle_invariant (I : particle F -> Prop) :
  (forall x y z radius size g,
      Forall I (emitted x y z radius size g)) ->
  (forall blue_pos q,
      I q -> survives blue_pos (drift q) = true ->
      I (steer blue_pos (drift q))) ->
  forall (cs : list (call F)) (ps : list (particle F)) (g : RandomState F),
    Forall I ps ->
    exists Ws,
      run cs (mkWorld (pool_of ps) g) = Some Ws
      /\ length Ws = length cs
      /\ Forall (fun W => exists ps' g',
                     W = mkWorld (pool_of ps') g' /\ Forall I ps') Ws.
Proof.
  intros Hemit Htick. apply run_pool_invariant.
  - intros. apply Forall_app. split; [assumption | apply Hemit].
  - intros blue_pos ps H. unfold tick. apply Forall_map, Forall_forall.
    intros q Hq. apply filter_In in Hq. destruct Hq as [Hin Hs].
    apply in_map_iff in Hin. destruct Hin as (q0 & <- & Hin).
    rewrite Forall_forall in H. apply Htick; auto.
Qed.

Lemma rows_pool_of (ps : list (particle F)) : rows (pool_of ps) = ps.
Proof.
  unfold rows, pool_of; simpl.
  induction ps as [|[p v a] ps IH]; simpl; [reflexivity | now rewrite IH].
Qed.

(** X1. The bodies, and with them the whole frame step, depend on the frame
    index modulo 120 only. *)
Theorem frames_periodic (frame k : Z) (W : World F) :
  orbit_positions (frame + k * orbit_period) = orbit_positions frame
  /\ update_frames (frame + k * orbit_period) W = update_frames frame W.
Proof.
  assert (E : orbit_positions (frame + k * orbit_period)
              = orbit_positions frame).
  { unfold orbit_positions. rewrite Z.mod_add by (unfold orbit_period; lia).
    reflexivity. }
  split; [exact E|]. unfold update_frames. now rewrite E.
Qed.

(** X3. Emission draws twice [n] samples from the generator when n > 0 and
    none otherwise, on any world; the step of the pool draws none; a frame
    draws 800. *)
Theorem samples_consumed :
  (forall x y z n radius (W : World F),
      exists W',
        emit_particles x y z n radius W = Some W'
        /\ forall i, random W' i = random W (2 * Z.to_nat n + i)%nat)
  /\ (forall blue_pos (W W' : World F),
         advance blue_pos W = Some W' -> random W' = random W)
  /\ (forall frame (ps : list (particle F)) (g : RandomState F),
         exists red blue_pos W',
           update_frames frame (mkWorld (pool_of ps) g)
           = Some (red, blue_pos, W')
           /\ forall i, random W' i = g (800 + i)%nat).
Proof.
  split; [|split].
  - intros x y z n radius W. destruct (Z.leb_spec n 0) as [Hn|Hn].
    + exists W. split; [now apply emit_particles_nonpos|].
      intros i. replace (Z.to_nat n) with 0%nat by lia. reflexivity.
    + eexists. split; [now apply emit_particles_pos|].
      intros i. cbn [random]. f_equal. lia.
  - intros blue_pos W W'. unfold advance.
    destruct (update_particles blue_pos (particles W)); cbn [bind];
      [|discriminate].
    now intros [= <-].
  - intros frame ps g.
    destruct (orbit_positions_some frame) as (red & blue_pos & E).
    eexists red, blue_pos, _.
    split; [now apply update_frames_explicit|].
    intros i. cbn [random]. reflexivity.
Qed.

(** X12. A non-empty pool whose arrays disagree in length makes the step
    raise, as long as a disagreement between positions and velocities is not
    one that broadcasting a single row hides. *)
Theorem ragged_pool_raises (blue_pos : V3 F) (P : Particles F) :
  pos P <> [] ->
  ~ aligned P ->
  (length (pos P) <> length (vel P) ->
   length (pos P) <> 1%nat /\ length (vel P) <> 1%nat) ->
  update_particles blue_pos P = None.
Proof.
  intros Hne Hna Hb. unfold update_particles.
  destruct (length (pos P) =? 0)%nat eqn:E0.
  { apply Nat.eqb_eq in E0. destruct (pos P); [congruence | discriminate]. }
  destruct (Nat.eq_dec (length (pos P)) (length (vel P))) as [Epv|Npv].
  - assert (Nage : length (age P) <> length (pos P)).
    { intros Ea. apply Hna. split; congruence. }
    unfold integrate. rewrite broadcast2_same_length by assumption.
    cbn [bind].
    set (P1 := mkParticles _ _ _).
    assert (L1 : length (pos P1) = length (pos P)).
    { unfold P1; cbn [pos]. clear -Epv. revert Epv.
      generalize (vel P). induction (pos P) as [|a l IH]; intros [|b r];
        simpl; try discriminate; auto. }
    assert (Hrem : forall P2, pos P2 = pos P1 -> age P2 = age P1 ->
                              length (vel P2) = length (pos P1) ->
                              remove_absorbed (distances blue_pos P1) P2 = None).
    { intros P2 Hp Ha Hv.
      assert (La : length (pos P1) <> length (age P2)).
      { rewrite Ha. unfold P1 at 2; cbn [age]. rewrite length_map, L1.
        congruence. }
      unfold remove_absorbed.
      set (mask := map negb _).
      assert (Lm : length mask = length (pos P1)).
      { unfold mask, distances. now rewrite !length_map. }
      unfold mask_select. rewrite Lm, Hp, Hv, Nat.eqb_refl; cbn [bind].
      destruct (Nat.eqb_spec (length (pos P1)) (length (age P2)));
        [contradiction | reflexivity]. }
    destruct (redirect blue_pos (distances blue_pos P1) P1) as [P2|] eqn:R;
      cbn [bind]; [|reflexivity].
    destruct (redirect_shape _ _ _ R) as (Hp & Ha & Hv).
    apply Hrem; try assumption.
    rewrite Hv, L1. unfold P1; cbn [vel]. now symmetry.
  - destruct (Hb Npv) as [H1 H2].
    unfold integrate, broadcast2.
    destruct (Nat.eqb_spec (length (pos P)) (length (vel P))); [contradiction|].
    destruct (pos P) as [|a [|a' l]], (vel P) as [|b [|b' r]];
      simpl in *; try congruence; reflexivity.
Qed.
End FrameFacts.

(** The ragged binary64 pool makes the step raise. *)
Lemma ragged_pool_raises_witness :
  update_particles blue_frame0 ragged_pool = None.
Proof.
  apply ragged_pool_raises.
  - discriminate.
  - intros [H _]. discriminate H.
  - intros _. split; discriminate.
Defined.

(** * Orbits, first flight and capture, in exact arithmetic *)

Section RealFrameFacts.
Local Open Scope R_scope.

Lemma norm3_planar (k t : R) :
  0 <= k -> norm3 (mkV3 (k * cos t) (k * sin t) 0) = k.
Proof.
  intros Hk. rewrite norm3_R. unfold sumsq; simpl.
  replace (k * cos t * (k * cos t) + k * sin t * (k * sin t) + 0 * 0)
    with (k * k * ((sin t)² + (cos t)²)) by (unfold Rsqr; ring).
  rewrite sin2_cos2, Rmult_1_r. now apply sqrt_square.
Qed.

(** The two bodies in closed form. *)
Lemma orbit_positions_R (frame : Z) :
  exists th,
    orbit_positions frame
    = Some (mkV3 (6 / 5 * cos th) (6 / 5 * sin th) 0,
            mkV3 (- 3 * cos th) (- 3 * sin th) 0).
Proof.
  unfold orbit_positions. rewrite theta_lookup; cbn [bind].
  generalize (@phase R _ _ (Z.to_nat (frame mod orbit_period))).
  intros th. exists th.
  rewrite red_radius_R. unfold center, blue_radius; simpl. real_ops.
  rewrite neg_cos, neg_sin. f_equal. f_equal; f_equal; lra.
Qed.

(** X2. At every frame the red body is at distance 1.2 and the blue body at
    distance 3 from the center, both in the plane z = 0 and on opposite
    sides of the center, so that they are 4.2 apart. *)
Theorem bodies_opposite (frame : Z) :
  exists red blue_pos,
    orbit_positions frame = Some (red, blue_pos)
    /\ norm3 (vsub red center) = 6 / 5
    /\ norm3 (vsub blue_pos center) = 3
    /\ vsub blue_pos center = vscale (- (5 / 2)) (vsub red center)
    /\ norm3 (vsub red blue_pos) = 21 / 5
    /\ c2 red = 0 /\ c2 blue_pos = 0.
Proof.
  destruct (orbit_positions_R frame) as (th & E).
  eexists _, _. split; [exact E|].
  split.
  { replace (vsub (mkV3 (6 / 5 * cos th) (6 / 5 * sin th) 0) center)
      with (mkV3 (6 / 5 * cos th) (6 / 5 * sin th) 0)
      by (unfold vsub, center; simpl; real_ops; f_equal; ring).
    apply norm3_planar. lra. }
  split.
  { rewrite norm3_vsub_sym.
    replace (vsub center (mkV3 (- 3 * cos th) (- 3 * sin th) 0))
      with (mkV3 (3 * cos th) (3 * sin th) 0)
      by (unfold vsub, center; simpl; real_ops; f_equal; ring).
    apply norm3_planar. lra. }
  split.
  { unfold vsub, vscale, center; simpl. real_ops. f_equal; lra. }
  split.
  { replace (vsub (mkV3 (6 / 5 * cos th) (6 / 5 * sin th) 0)
                  (mkV3 (- 3 * cos th) (- 3 * sin th) 0))
      with (mkV3 (21 / 5 * cos th) (21 / 5 * sin th) 0)
      by (unfold vsub; simpl; real_ops; f_equal; field).
    apply norm3_planar. lra. }
  split; reflexivity.
Qed.

(** X10. The time shown with a frame is the frame index modulo 120 divided
    by 25: it starts again with every orbit and stays within one period,
    from 0 to 4.76 < 4.8. *)
Theorem sim_time_range (frame k : Z) :
  @sim_time R _ frame = IZR (frame mod 120) / 25
  /\ 0 <= @sim_time R _ frame <= 119 / 25
  /\ @sim_time R _ frame < period
  /\ @sim_time R _ (frame + k * orbit_period) = @sim_time R _ frame.
Proof.
  assert (E : @sim_time R _ frame = IZR (frame mod 120) / 25).
  { unfold sim_time, frame_time, period, dec, orbit_period. real_ops. simpl.
    field. }
  pose proof (Z.mod_pos_bound frame 120 eq_refl) as [H0 H1].
  assert (B0 : 0 <= IZR (frame mod 120)) by (now apply IZR_le).
  assert (B1 : IZR (frame mod 120) <= 119) by (apply IZR_le; lia).
  split; [exact E|].
  split; [rewrite E; lra|].
  split.
  { rewrite E. unfold period, dec. real_ops. simpl. lra. }
  unfold sim_time. rewrite Z.mod_add by (unfold orbit_period; lia).
  reflexivity.
Qed.
(** A particle that moves at distance 2.5 or more from the blue body is
    neither removed nor redirected. *)
Lemma tick_far (blue_pos : V3 R) (ps : list (particle R)) :
  Forall (fun q => 5 / 2 <= dist_to blue_pos (drift q)) ps ->
  tick blue_pos ps = map drift ps.
Proof.
  unfold tick. induction ps as [|q ps IH]; intros H; [reflexivity|].
  inversion H as [|? ? Hq Hps]; subst. cbn [map filter].
  replace (survives blue_pos (drift q)) with true
    by (symmetry; apply survives_true; lra).
  cbn [map]. rewrite (IH Hps). f_equal.
  now apply steer_cases.
Qed.

(** After its first move a new particle is at origin + (r + wind_speed) d. *)
Lemma first_move (x y z r a p : R) :
  vadd (shell_point x y z r a p) (wind a p)
  = vadd (mkV3 x y z) (vscale (r + wind_speed) (direction a p)).
Proof.
  unfold shell_point, wind, vadd, vscale, direction; simpl. real_ops.
  f_equal; ring.
Qed.

Lemma unit_dot_bound (X Y A B Cp Sp : R) :
  X * X + Y * Y = 1 -> A * A + B * B = 1 -> Cp * Cp + Sp * Sp = 1 ->
  -1 <= X * (A * Sp) + Y * (B * Sp).
Proof.
  intros HXY HAB HP.
  pose proof (Rle_0_sqr (X + A * Sp)) as H1.
  pose proof (Rle_0_sqr (Y + B * Sp)) as H2.
  pose proof (Rle_0_sqr Cp) as H3. unfold Rsqr in *.
  assert (E : (X + A * Sp) * (X + A * Sp) + (Y + B * Sp) * (Y + B * Sp)
              + Cp * Cp
              = (X * X + Y * Y) + 2 * (X * (A * Sp) + Y * (B * Sp))
                + ((A * A + B * B) * (Sp * Sp) + Cp * Cp)) by ring.
  rewrite HXY, HAB, Rmult_1_l in E. lra.
Qed.

(** A particle one move away from the red body is still more than 2.5 away
    from the blue body, whatever its direction. *)
Lemma far_from_blue (th a p : R) :
  5 / 2 < norm3 (vsub (vadd (mkV3 (6 / 5 * cos th) (6 / 5 * sin th) 0)
                            (vscale (6 / 5 + wind_speed) (direction a p)))
                      (mkV3 (- 3 * cos th) (- 3 * sin th) 0)).
Proof.
  rewrite norm3_R.
  replace (5 / 2) with (sqrt (5 / 2 * (5 / 2))) by (apply sqrt_square; lra).
  apply sqrt_lt_1_alt. split; [lra|].
  rewrite wind_speed_R.
  unfold sumsq, vsub, vadd, vscale, direction; simpl. real_ops.
  pose proof PI_RGT_0 as Hpi0. pose proof PI_4 as Hpi4.
  pose proof (sin2_cos2 th) as HXY. pose proof (sin2_cos2 a) as HAB.
  pose proof (sin2_cos2 p) as HP. unfold Rsqr in *.
  set (X := cos th) in *. set (Y := sin th) in *.
  set (A := cos a) in *. set (B := sin a) in *.
  set (Cp := cos p) in *. set (Sp := sin p) in *.
  set (S := 6 / 5 + PI / 50).
  assert (HS : 6 / 5 < S <= 32 / 25) by (unfold S; lra).
  assert (HD : -1 <= X * (A * Sp) + Y * (B * Sp))
    by (apply unit_dot_bound with (Cp := Cp); lra).
  set (D := X * (A * Sp) + Y * (B * Sp)) in *.
  assert (E : (6 / 5 * X + S * (A * Sp) - -3 * X)
              * (6 / 5 * X + S * (A * Sp) - -3 * X)
              + (6 / 5 * Y + S * (B * Sp) - -3 * Y)
                * (6 / 5 * Y + S * (B * Sp) - -3 * Y)
              + (0 + S * Cp - 0) * (0 + S * Cp - 0)
              = 441 / 25 * (Y * Y + X * X) + 42 / 5 * (S * D)
                + S * S * ((B * B + A * A) * (Sp * Sp) + Cp * Cp))
    by (unfold D; field).
  rewrite E, HXY, HAB, Rmult_1_l.
  replace (Cp * Cp) with (1 - Sp * Sp) by lra.
  assert (HSD : - S <= S * D) by nra.
  nra.
Qed.

(** The frame step in closed form: the old particles are stepped, the 400
    new ones only moved. *)
Lemma update_frames_R (frame : Z) (ps : list (particle R)) (g : RandomState R) :
  exists red blue_pos g',
    orbit_positions frame = Some (red, blue_pos)
    /\ update_frames frame (mkWorld (pool_of ps) g)
       = Some (red, blue_pos,
               mkWorld
                 (pool_of (tick blue_pos ps
                           ++ map drift (emitted (c0 red) (c1 red) (c2 red)
                                                 red_radius 400 g)))
                 g')
    /\ Forall (fun q => 5 / 2 < dist_to blue_pos (drift q)
                        /\ p_age (drift q) = 1
                        /\ norm3 (p_vel (drift q)) = wind_speed
                        /\ norm3 (vsub (p_pos (drift q)) red)
                           = red_radius + wind_speed)
              (emitted (c0 red) (c1 red) (c2 red) red_radius 400 g).
Proof.
  destruct (orbit_positions_R frame) as (th & E).
  set (red := mkV3 (6 / 5 * cos th) (6 / 5 * sin th) 0) in *.
  set (blue_pos := mkV3 (- 3 * cos th) (- 3 * sin th) 0) in *.
  assert (Hnew : Forall (fun q => 5 / 2 < dist_to blue_pos (drift q)
                                  /\ p_age (drift q) = 1
                                  /\ norm3 (p_vel (drift q)) = wind_speed
                                  /\ norm3 (vsub (p_pos (drift q)) red)
                                     = red_radius + wind_speed)
                        (emitted (c0 red) (c1 red) (c2 red) red_radius 400 g)).
  { unfold emitted. apply Forall_map, Forall_forall. intros i _.
    unfold dist_to, drift; cbn [p_pos p_vel p_age]. rewrite first_move.
    rewrite red_radius_R. split; [|split; [|split]].
    - apply far_from_blue.
    - real_ops. lra.
    - rewrite wind_direction, norm3_vscale, norm3_direction.
      + real_ops. ring.
      + apply Rlt_le, wind_speed_pos.
    - replace (vsub (vadd (mkV3 (c0 red) (c1 red) (c2 red))
                          (vscale (6 / 5 + wind_speed)
                                  (direction (azimuth g i) (polar 400 g i))))
                    red)
        with (vscale (6 / 5 + wind_speed)
                     (direction (azimuth g i) (polar 400 g i)))
        by (unfold vsub, vadd, vscale, red; simpl; real_ops; f_equal; ring).
      rewrite norm3_vscale, norm3_direction.
      + real_ops. ring.
      + pose proof wind_speed_pos. lra. }
  exists red, blue_pos, (fun i => g (400 + (400 + i))%nat).
  split; [exact E|]. split; [|exact Hnew].
  rewrite (@update_frames_explicit R _ _ frame ps g red blue_pos E).
  rewrite tick_app.
  change (Z.to_nat particles_frame) with 400%nat.
  rewrite (@tick_far blue_pos
             (emitted (c0 red) (c1 red) (c2 red) red_radius 400 g)).
  - reflexivity.
  - eapply Forall_impl; [|exact Hnew]. intros q [H _]. lra.
Qed.

(** X4. In the frame that emits them, the 400 new particles are neither
    redirected nor removed: they are appended after the stepped old
    particles, each with age 1, speed wind_speed, at distance
    red_radius + wind_speed from the red body and more than 2.5 from the
    blue body. *)
Theorem fresh_particles_fly_free (frame : Z) (ps : list (particle R))
        (g : RandomState R) :
  exists red blue_pos W' new,
    update_frames frame (mkWorld (pool_of ps) g) = Some (red, blue_pos, W')
    /\ particles W' = pool_of (tick blue_pos ps ++ new)
    /\ new = map drift (emitted (c0 red) (c1 red) (c2 red) red_radius 400 g)
    /\ length new = 400%nat
    /\ Forall (fun q => 5 / 2 < dist_to blue_pos q
                        /\ p_age q = 1
                        /\ norm3 (p_vel q) = wind_speed
                        /\ norm3 (vsub (p_pos q) red)
                           = red_radius + wind_speed)
              new.
Proof.
  destruct (update_frames_R frame ps g) as (red & blue_pos & g' & _ & E & H).
  eexists red, blue_pos, _, _. split; [exact E|].
  split; [reflexivity|]. split; [reflexivity|].
  split; [unfold emitted; now rewrite !length_map, length_seq|].
  apply Forall_map. exact H.
Qed.
(** X5. Over any sequence of frames, from any aligned pool, the pool after
    frame number k (counted from 0) holds at least the 400 particles of that
    frame and at most the initial ones plus 400 per frame played. *)
Theorem pool_size_over_frames (frames : list Z) (ps : list (particle R))
        (g : RandomState R) :
  exists Ws,
    run (map (@Frame R) frames) (mkWorld (pool_of ps) g) = Some Ws
    /\ length Ws = length frames
    /\ forall k W,
         nth_error Ws k = Some W ->
         (400 <= length (pos (particles W)) <= length ps + 400 * (k + 1))%nat.
Proof.
  revert ps g. induction frames as [|f frames IH]; intros ps g.
  - exists []. repeat split; destruct k; discriminate.
  - destruct (update_frames_R f ps g) as (red & blue_pos & g' & _ & E & _).
    set (ps' := tick blue_pos ps
                ++ map drift (emitted (c0 red) (c1 red) (c2 red)
                                      red_radius 400 g)) in *.
    assert (L : (400 <= length ps' <= length ps + 400)%nat).
    { unfold ps'. rewrite length_app. unfold emitted.
      rewrite !length_map, length_seq.
      pose proof (length_tick blue_pos ps). lia. }
    destruct (IH ps' g') as (Ws & R & LW & B).
    exists (mkWorld (pool_of ps') g' :: Ws).
    split; [|split].
    + cbn [map run step]. rewrite E; cbn [bind snd]. rewrite R; cbn [bind].
      reflexivity.
    + simpl. now rewrite LW.
    + intros [|k] W HW.
      * injection HW as <-. cbn [particles pos pool_of].
        rewrite length_map. lia.
      * specialize (B k W HW). lia.
Qed.

(** One more move brings a redirected particle closer to the point it was
    redirected to by exactly the absorption speed. *)
Lemma step_towards (blue_pos : V3 R) (q : particle R) :
  1 / 20 <= dist_to blue_pos q < 5 / 2 ->
  norm3 (p_vel (steer blue_pos q)) = absorption_speed
  /\ dist_to blue_pos (drift (steer blue_pos q)) = dist_to blue_pos q - 1 / 20.
Proof.
  intros [H0 H1].
  destruct (steer_cases blue_pos q) as (Hin & _ & _).
  destruct Hin as [Ev En]; [lra|]. split; [exact En|].
  unfold dist_to at 1, drift; cbn [p_pos]. rewrite Ev, steer_pos.
  set (d := dist_to blue_pos q) in *.
  rewrite absorption_speed_R.
  replace (vsub (vadd (p_pos q)
                      (vscale (1 / 20 / d) (vsub blue_pos (p_pos q))))
                blue_pos)
    with (vscale (1 - 1 / 20 / d) (vsub (p_pos q) blue_pos))
    by (unfold vsub, vadd, vscale; simpl; real_ops; f_equal; ring).
  assert (Hk : 0 <= 1 - 1 / 20 / d).
  { assert (Hd : 0 < d) by lra.
    assert (Hi : 0 < / d) by (now apply Rinv_0_lt_compat).
    assert (Ed : d * / d = 1) by (apply Rinv_r; lra).
    unfold Rdiv. nra. }
  rewrite norm3_vscale by assumption.
  change (norm3 (vsub (p_pos q) blue_pos)) with d.
  real_ops. field. lra.
Qed.

(** X6. A particle that the move leaves between 0.1 and 2.5 from the blue
    body stays in the pool with speed absorption_speed, and its next move
    takes it exactly 0.05 closer to that position of the blue body. *)
Theorem captured_particle_approaches (blue_pos : V3 R)
        (ps : list (particle R)) (q : particle R) :
  In q ps ->
  1 / 10 <= dist_to blue_pos (drift q) < 5 / 2 ->
  exists P',
    update_particles blue_pos (pool_of ps) = Some P'
    /\ In (steer blue_pos (drift q)) (rows P')
    /\ norm3 (p_vel (steer blue_pos (drift q))) = absorption_speed
    /\ dist_to blue_pos (drift (steer blue_pos (drift q)))
       = dist_to blue_pos (drift q) - 1 / 20.
Proof.
  intros Hin [H0 H1]. exists (pool_of (tick blue_pos ps)).
  split; [apply update_particles_pool|].
  split.
  { rewrite rows_pool_of. unfold tick. apply in_map, filter_In.
    split; [now apply in_map | apply survives_true; lra]. }
  apply step_towards. lra.
Qed.

Lemma dist_one_away : dist_to origin3 (drift at_rest_one_away) = 1.
Proof.
  unfold dist_to. rewrite norm3_R.
  replace (sumsq (vsub (p_pos (drift at_rest_one_away)) origin3)) with (1 * 1)
    by (unfold sumsq, vsub, drift, vadd, at_rest_one_away, origin3; simpl;
        real_ops; ring).
  apply sqrt_square. lra.
Qed.


(** X11. In every world of a run from the empty pool every particle moves
    at one of two speeds: wind_speed = pi / 50, as emitted, or
    absorption_speed = 1 / 20, once redirected. *)
Theorem speeds_are_two (cs : list (call R)) (g : RandomState R) :
  @wind_speed R _ _ = PI / 50
  /\ @absorption_speed R _ = 1 / 20
  /\ exists Ws,
      run cs (initial g) = Some Ws
      /\ Forall (fun W =>
                   Forall (fun v => norm3 v = wind_speed
                                    \/ norm3 v = absorption_speed)
                          (vel (particles W)))
                Ws.
Proof.
  split; [apply wind_speed_R|]. split; [apply absorption_speed_R|].
  destruct (@run_particle_invariant R _ _
              (fun q => norm3 (p_vel q) = wind_speed
                        \/ norm3 (p_vel q) = absorption_speed))
    with (cs := cs) (ps := @nil (particle R)) (g := g)
    as (Ws & E & _ & A).
  - intros x y z radius size g0. unfold emitted.
    apply Forall_map, Forall_forall. intros i _. left. cbn [p_vel].
    rewrite wind_direction, norm3_vscale, norm3_direction.
    + real_ops. ring.
    + apply Rlt_le, wind_speed_pos.
  - intros blue_pos q Hq Hs. apply survives_true in Hs.
    destruct (is_close blue_pos (drift q)) eqn:C.
    + right. apply is_close_true in C. apply step_towards. lra.
    + unfold steer. rewrite C. exact Hq.
  - constructor.
  - exists Ws. split; [exact E|].
    eapply Forall_impl; [|exact A].
    intros W (ps & g' & -> & H). cbn [particles vel pool_of].
    apply Forall_map. exact H.
Qed.

(** X8. When the generator returns samples in [0, 1), the height of each
    new particle above the origin of the emission is the shell radius times
    2 s - 1, and its vertical velocity is wind_speed times 2 s - 1, for the
    sample s of its polar draw: heights are spread as the samples are. *)
Theorem emission_heights (x y z : R) (n : Z) (r : R) (W : World R) :
  (forall i, 0 <= random W i < 1) ->
  exists W' new_pos new_vel,
    emit_particles x y z n r W = Some W'
    /\ pos (particles W') = pos (particles W) ++ new_pos
    /\ vel (particles W') = vel (particles W) ++ new_vel
    /\ map (@c2 R) new_pos
       = map (fun i => z + r * (2 * random W (Z.to_nat n + i)%nat - 1))
             (seq 0 (Z.to_nat n))
    /\ map (@c2 R) new_vel
       = map (fun i => wind_speed * (2 * random W (Z.to_nat n + i)%nat - 1))
             (seq 0 (Z.to_nat n)).
Proof.
  intros Hg. destruct (Z.leb_spec n 0) as [Hn|Hn].
  - exists W, [], []. rewrite emit_particles_nonpos by assumption.
    rewrite !app_nil_r. replace (Z.to_nat n) with 0%nat by lia.
    repeat split.
  - eexists _, _, _. split; [now apply emit_particles_pos|].
    cbn [particles pos vel]. split; [reflexivity|]. split; [reflexivity|].
    assert (Hcos : forall i,
               cos (polar (Z.to_nat n) (random W) i)
               = 2 * random W (Z.to_nat n + i)%nat - 1).
    { intros i. unfold polar. real_ops.
      specialize (Hg (Z.to_nat n + i)%nat).
      rewrite cos_acos by lra. lra. }
    unfold emitted, pool_of; cbn [pos vel]. rewrite !map_map.
    split; apply map_ext; intros i; cbn [p_pos p_vel shell_point wind c2];
      real_ops; rewrite Hcos; ring.
Qed.
Lemma dist_on_axis (d a : R) :
  0 <= d ->
  dist_to origin3 (drift (mkParticle (mkV3 d 0 0) (mkV3 0 0 0) a)) = d.
Proof.
  intros Hd. unfold dist_to. rewrite norm3_R.
  replace (sumsq (vsub (p_pos (drift (mkParticle (mkV3 d 0 0) (mkV3 0 0 0) a)))
                       origin3))
    with (d * d)
    by (unfold sumsq, vsub, drift, vadd, origin3; simpl; real_ops; ring).
  now apply sqrt_square.
Qed.

(** X9. When the move leaves every particle at distance 2.5 or more from
    the blue body, the step is free flight: every position gains its
    velocity, every age gains 1, velocities stay, and nothing is
    removed. *)
Theorem free_flight (blue_pos : V3 R) (ps : list (particle R)) :
  Forall (fun q => 5 / 2 <= dist_to blue_pos (drift q)) ps ->
  update_particles blue_pos (pool_of ps)
  = Some (mkParticles (map (fun q => vadd (p_pos q) (p_vel q)) ps)
                      (map p_vel ps)
                      (map (fun q => p_age q + 1) ps)).
Proof.
  intros H. rewrite update_particles_pool, (@tick_far blue_pos ps H).
  unfold pool_of. now rewrite !map_map.
Qed.

End RealFrameFacts.

(** The step of X9 on a particle at rest three units from the blue body. *)
Lemma free_flight_witness :
  update_particles origin3 (pool_of [at_rest_three_away])
  = Some (mkParticles
            (map (fun q => vadd (p_pos q) (p_vel q)) [at_rest_three_away])
            (map (@p_vel R) [at_rest_three_away])
            (map (fun q => (p_age q + 1)%R) [at_rest_three_away])).
Proof.
  apply (@free_flight origin3 [at_rest_three_away]).
  constructor; [|constructor].
  unfold at_rest_three_away. rewrite dist_on_axis; lra.
Defined.

(** The step of X6 on a particle at rest one unit from the blue body. *)
Lemma captured_particle_approaches_witness :
  exists P',
    update_particles origin3 (pool_of [at_rest_one_away]) = Some P'
    /\ In (steer origin3 (drift at_rest_one_away)) (rows P')
    /\ norm3 (p_vel (steer origin3 (drift at_rest_one_away)))
       = absorption_speed
    /\ dist_to origin3 (drift (steer origin3 (drift at_rest_one_away)))
       = (dist_to origin3 (drift at_rest_one_away) - 1 / 20)%R.
Proof.
  apply (@captured_particle_approaches origin3 [at_rest_one_away]
           at_rest_one_away).
  - left. reflexivity.
  - rewrite dist_one_away. split; lra.
Defined.

(** The emission of X8 with every sample equal to 1/2: three particles at
    the height of the origin. *)
Lemma emission_heights_witness :
  exists W' new_pos new_vel,
    emit_particles 0%R 0%R 0%R 3 1%R (initial (fun _ => (1 / 2)%R)) = Some W'
    /\ pos (particles W') = [] ++ new_pos
    /\ vel (particles W') = [] ++ new_vel
    /\ map (@c2 R) new_pos
       = map (fun i : nat => (0 + 1 * (2 * (1 / 2) - 1))%R) (seq 0 3)
    /\ map (@c2 R) new_vel
       = map (fun i : nat => (wind_speed * (2 * (1 / 2) - 1))%R) (seq 0 3).
Proof.
  apply (@emission_heights 0%R 0%R 0%R 3 1%R (initial (fun _ => (1 / 2)%R))).
  intros i. cbn [random initial]. lra.
Defined.
